(** * ring: coder registry and LRU cache engine

    A shallow embedding of [ring/func/lru_cache.py] and [ring/coder.py].

    The LRU engine is a closure over a dict [cache], a list [stat], a bound
    [maxsize] and the attribute [self.root]; every link of the circular
    doubly linked list is a mutable Python list [[PREV, NEXT, KEY, RESULT]].
    Links are shared by reference (the dict and the neighbouring links all
    point to the same object), so the embedding keeps an explicit store of
    links addressed by [addr] and threads it through every operation. *)

From stdpp Require Import gmap strings list fin_maps.
From Stdlib Require Import ZArith Lia.

Open Scope Z_scope.

(** ** Python values *)

(** The hashable Python objects that the engine is exercised with: [None],
    instances of [object] (compared by identity), integers and strings. *)
Inductive pyobj : Type :=
  | PyNone
  | PyObject (id : nat)
  | PyInt (z : Z)
  | PyStr (s : string).

#[global] Instance pyobj_eq_dec : EqDecision pyobj.
Proof. solve_decision. Defined.

Definition pyobj_encode (o : pyobj) : unit + nat + Z + string :=
  match o with
  | PyNone => inl (inl (inl tt))
  | PyObject i => inl (inl (inr i))
  | PyInt z => inl (inr z)
  | PyStr s => inr s
  end.

Definition pyobj_decode (x : unit + nat + Z + string) : pyobj :=
  match x with
  | inl (inl (inl _)) => PyNone
  | inl (inl (inr i)) => PyObject i
  | inl (inr z) => PyInt z
  | inr s => PyStr s
  end.

#[global] Instance pyobj_countable : Countable pyobj.
Proof.
  apply (inj_countable' pyobj_encode pyobj_decode).
  intros []; reflexivity.
Defined.

Module LruCache.

(** [SENTINEL = object()]: the unique object used to signal cache misses. *)
Definition SENTINEL : pyobj := PyObject 0.

(** ** The store of links *)

Definition addr := nat.

(** A link is the list [[PREV, NEXT, KEY, RESULT]]. *)
Record link : Type := Link {
  PREV : addr;
  NEXT : addr;
  KEY : pyobj;
  RESULT : pyobj
}.

(** [stat = [FULL, HITS, MISSES]]. *)
Record stats : Type := Stat {
  FULL : bool;
  HITS : Z;
  MISSES : Z
}.

(** The state captured by the closures of [LruCache.__init__]. *)
Record t : Type := Engine {
  maxsize : Z;
  cache : gmap pyobj addr;
  heap : gmap addr link;
  root : addr;
  stat : stats
}.

Definition with_cache (c : gmap pyobj addr) (s : t) : t :=
  Engine (maxsize s) c (heap s) (root s) (stat s).
Definition with_heap (h : gmap addr link) (s : t) : t :=
  Engine (maxsize s) (cache s) h (root s) (stat s).
Definition with_root (r : addr) (s : t) : t :=
  Engine (maxsize s) (cache s) (heap s) r (stat s).
Definition with_stat (st : stats) (s : t) : t :=
  Engine (maxsize s) (cache s) (heap s) (root s) st.

Definition set_PREV (v : addr) (l : link) : link := Link v (NEXT l) (KEY l) (RESULT l).
Definition set_NEXT (v : addr) (l : link) : link := Link (PREV l) v (KEY l) (RESULT l).
Definition set_KEY (v : pyobj) (l : link) : link := Link (PREV l) (NEXT l) v (RESULT l).
Definition set_RESULT (v : pyobj) (l : link) : link := Link (PREV l) (NEXT l) (KEY l) v.

(** ** Exceptions and the state monad of the engine *)

(** [KeyError] is the Python exception of [del cache[key]].  [BadReference]
    has no Python counterpart: a Python reference always designates a live
    list, whereas an address of the model may lie outside the store; the
    model reports it and the invariants below show that it never happens. *)
Inductive exn : Type := KeyError | BadReference.

Inductive outcome (A : Type) : Type :=
  | Return (a : A)
  | Raise (e : exn).
Arguments Return {A} a.
Arguments Raise {A} e.

(** A raised exception does not roll the state back: the state reached at
    the point of the [raise] is returned with it. *)
Definition M (A : Type) : Type := t → outcome A * t.

#[global] Instance M_ret : MRet M := λ A a s, (Return a, s).
#[global] Instance M_bind : MBind M := λ A B f m s,
  match m s with
  | (Return a, s') => f a s'
  | (Raise e, s') => (Raise e, s')
  end.

Definition gets {A} (f : t → A) : M A := λ s, (Return (f s), s).
Definition modify (f : t → t) : M unit := λ s, (Return tt, f s).

(** Reading a link through a reference. *)
Definition load (a : addr) : M link := λ s,
  match heap s !! a with
  | Some l => (Return l, s)
  | None => (Raise BadReference, s)
  end.

(** [a[i] = v] for one of the four fields, as [a := f a]. *)
Definition store (a : addr) (f : link → link) : M unit := λ s,
  match heap s !! a with
  | Some l => (Return tt, with_heap (<[a := f l]> (heap s)) s)
  | None => (Raise BadReference, s)
  end.

(** A list display [[p, n, k, r]] creates a new object, at an address that
    no live link has. *)
Definition alloc (l : link) : M addr := λ s,
  let a := fresh (dom (heap s)) in
  (Return a, with_heap (<[a := l]> (heap s)) s).

(** [del cache[key]] *)
Definition cache_del (key : pyobj) : M unit := λ s,
  match cache s !! key with
  | Some _ => (Return tt, with_cache (base.delete key (cache s)) s)
  | None => (Raise KeyError, s)
  end.

Definition cache_len (s : t) : Z := Z.of_nat (size (cache s)).

(** ** The five operations *)

(** [LruCache(maxsize)]: an empty dict, a root link pointing to itself and
    [stat = [False, 0, 0]]. *)
Definition init (maxsize : Z) : t :=
  Engine maxsize ∅ {[0%nat := Link 0%nat 0%nat PyNone PyNone]} 0%nat (Stat false 0 0).

Definition get (key : pyobj) : M pyobj :=
  link ← gets (λ s, cache s !! key);
  match link with
  | Some link =>
      root ← gets root;
      l ← load link;
      let link_prev := PREV l in
      let link_next := NEXT l in
      let result := RESULT l in
      store link_prev (set_NEXT link_next);;
      store link_next (set_PREV link_prev);;
      rt ← load root;
      let last := PREV rt in
      store last (set_NEXT link);;
      store root (set_PREV link);;
      store link (set_PREV last);;
      store link (set_NEXT root);;
      modify (λ s, with_stat (Stat (FULL (stat s)) (HITS (stat s) + 1) (MISSES (stat s))) s);;
      mret result
  | None =>
      modify (λ s, with_stat (Stat (FULL (stat s)) (HITS (stat s)) (MISSES (stat s) + 1)) s);;
      mret SENTINEL
  end.

Definition delete (key : pyobj) : M unit :=
  rt ← gets root;
  _ ← load rt;
  cache_del key;;
  modify (λ s, with_stat (Stat false (HITS (stat s)) (MISSES (stat s))) s).

Definition set (key result : pyobj) : M unit :=
  link ← gets (λ s, cache s !! key);
  match link with
  | Some link =>
      store link (set_RESULT result)
  | None =>
      full ← gets (λ s, FULL (stat s));
      if full : bool then
        oldroot ← gets root;
        store oldroot (set_KEY key);;
        store oldroot (set_RESULT result);;
        o ← load oldroot;
        let root := NEXT o in
        modify (with_root root);;
        r ← load root;
        let oldkey := KEY r in
        store root (set_KEY PyNone);;
        store root (set_RESULT PyNone);;
        cache_del oldkey;;
        modify (λ s, with_cache (<[key := oldroot]> (cache s)) s)
      else
        root ← gets root;
        rt ← load root;
        let last := PREV rt in
        link ← alloc (Link last root key result);
        store last (set_NEXT link);;
        store root (set_PREV link);;
        modify (λ s, with_cache (<[key := link]> (cache s)) s);;
        modify (λ s, with_stat (Stat (bool_decide (maxsize s ≤ cache_len s)) (HITS (stat s)) (MISSES (stat s))) s)
  end.

(** [_CacheInfo(hits, misses, maxsize, currsize)] *)
Definition cache_info (s : t) : Z * Z * Z * Z :=
  (HITS (stat s), MISSES (stat s), maxsize s, cache_len s).

Definition clear : M unit :=
  modify (with_cache ∅);;
  root ← gets root;
  store root (λ _, Link root root PyNone PyNone);;
  modify (with_stat (Stat false 0 0)).

(** ** Observing the recency ordering *)

(** A node of the ordering: the address of a link with its key and result. *)
Definition node : Type := addr * (pyobj * pyobj).

(** Follow [NEXT] from [a] until [stop] is met; [fuel] bounds the walk. *)
Fixpoint walk (h : gmap addr link) (stop : addr) (fuel : nat) (a : addr) : list node :=
  match fuel with
  | O => []
  | S fuel =>
      if decide (a = stop) then []
      else match h !! a with
           | Some l => (a, (KEY l, RESULT l)) :: walk h stop fuel (NEXT l)
           | None => []
           end
  end.

(** The links after the root, least recently used first. *)
Definition ring_nodes (s : t) : list node :=
  match heap s !! root s with
  | Some rt => walk (heap s) (root s) (size (heap s)) (NEXT rt)
  | None => []
  end.

(** The [(key, result)] pairs of the ordering, least recently used first. *)
Definition ring_items (s : t) : list (pyobj * pyobj) := (ring_nodes s).*2.

(** The key held by the link just before the root (the most recently used
    position), when that link is not the root itself. *)
Definition mru_key (s : t) : option pyobj :=
  rt ← heap s !! root s;
  if decide (PREV rt = root s) then None else KEY <$> heap s !! PREV rt.

(** The key held by the link just after the root (the least recently used
    position). *)
Definition lru_key (s : t) : option pyobj :=
  rt ← heap s !! root s;
  if decide (NEXT rt = root s) then None else KEY <$> heap s !! NEXT rt.

(** The dict and the ordering agree: the ordering visits each link once and
    the dict maps exactly the keys of the visited links, each to its link. *)
Definition consistent (s : t) : Prop :=
  NoDup (ring_nodes s).*1 ∧
  map_to_list (cache s) ≡ₚ (λ n : node, (n.2.1, n.1)) <$> ring_nodes s.

(** ** Sequences of calls *)

Inductive call : Type :=
  | CGet (key : pyobj)
  | CSet (key result : pyobj)
  | CDelete (key : pyobj)
  | CClear.

(** The state after a call, whether it returned or raised. *)
Definition exec (s : t) (c : call) : t :=
  match c with
  | CGet key => (get key s).2
  | CSet key result => (set key result s).2
  | CDelete key => (delete key s).2
  | CClear => (clear s).2
  end.

Definition is_returned {A} (o : outcome A) : bool :=
  match o with Return _ => true | Raise _ => false end.

(** Whether the call returns normally. *)
Definition returns (s : t) (c : call) : bool :=
  match c with
  | CGet key => is_returned (get key s).1
  | CSet key result => is_returned (set key result s).1
  | CDelete key => is_returned (delete key s).1
  | CClear => is_returned (clear s).1
  end.

Definition run (s : t) (cs : list call) : t := foldl exec s cs.

Definition is_delete (c : call) : bool :=
  match c with CDelete _ => true | _ => false end.

End LruCache.

(** * The coder registry ([ring/coder.py]) *)

Module Coder.

(** The functions that the module handles as values.  What the JSON and
    pickle functions compute belongs to their libraries and is not
    modelled; [Fbypass] is [bypass] below. *)
Inductive func : Type :=
  | Fbypass
  | FJsonCoder_encode
  | FJsonCoder_decode
  | Fpickle_dumps
  | Fpickle_loads
  | Fstr_encode (self : string)
  | Fother (id : nat).

(** The Python objects that may be passed as [raw_coder], by the features
    that [coderize] inspects: the class ([isinstance]) and the attributes
    [encode] and [decode] ([hasattr]).  [OStr] and [OTuple] are instances
    of [str] and [tuple] themselves; [OStrInstance] and [OTupleInstance]
    are instances of their subclasses, which may have further attributes
    (a named tuple has its fields, a class body may define [decode]). *)
Inductive object : Type :=
  | ONone
  | OInt (z : Z)
  | OStr (s : string)
  | OFunc (f : func)
  | OTuple (items : list object)
  | OCoderTuple (encode decode : object)
  | OCoderInstance (cls : string) (encode decode : object)
  | OInstance (cls : string) (attrs : list (string * object))
  | OStrInstance (cls : string) (s : string) (attrs : list (string * object))
  | OTupleInstance (cls : string) (items : list object)
      (attrs : list (string * object)).

(** [def bypass(x): return x] *)
Definition bypass (x : object) : object := x.

(** Calling a function value, where the module defines it. *)
Definition call (f : func) (x : object) : option object :=
  match f with
  | Fbypass => Some (bypass x)
  | _ => None
  end.

(** [JsonCoder()]: an instance of the subclass [JsonCoder] of [Coder],
    with its two static methods. *)
Definition JsonCoder : object :=
  OCoderInstance "JsonCoder" (OFunc FJsonCoder_encode) (OFunc FJsonCoder_decode).

(** [isinstance(o, Coder)]: instances of subclasses of the abstract class,
    and of [CoderTuple], which [Coder.register(CoderTuple)] makes a virtual
    subclass. *)
Definition isinstance_Coder (o : object) : bool :=
  match o with
  | OCoderTuple _ _ | OCoderInstance _ _ _ => true
  | _ => false
  end.

(** [isinstance(o, str)] *)
Definition isinstance_str (o : object) : bool :=
  match o with OStr _ | OStrInstance _ _ _ => true | _ => false end.

(** [isinstance(o, tuple)]: a named tuple is a tuple as well. *)
Definition isinstance_tuple (o : object) : bool :=
  match o with
  | OTuple _ | OCoderTuple _ _ | OTupleInstance _ _ _ => true
  | _ => false
  end.

(** The attributes of an instance, by name. *)
Fixpoint lookup_attr (name : string) (attrs : list (string * object)) : option object :=
  match attrs with
  | [] => None
  | (n, v) :: attrs => if decide (n = name) then Some v else lookup_attr name attrs
  end.

(** [getattr(o, name)] for the names [encode] and [decode]; a [str] of
    Python 3 has a method [encode] and no [decode].  [None] stands for
    [AttributeError]. *)
Definition getattr (o : object) (name : string) : option object :=
  match o with
  | OStr s => if decide (name = "encode") then Some (OFunc (Fstr_encode s)) else None
  | OCoderTuple e d | OCoderInstance _ e d =>
      if decide (name = "encode") then Some e
      else if decide (name = "decode") then Some d else None
  | OInstance _ attrs | OTupleInstance _ _ attrs => lookup_attr name attrs
  | OStrInstance _ s attrs =>
      match lookup_attr name attrs with
      | Some v => Some v
      | None => if decide (name = "encode") then Some (OFunc (Fstr_encode s)) else None
      end
  | _ => None
  end.

(** [hasattr(o, name)]: [getattr] does not raise. *)
Definition hasattr (o : object) (name : string) : bool :=
  bool_decide (is_Some (getattr o name)).

(** The exception that [coderize] raises, also through the constructor of
    the named tuple. *)
Inductive exn : Type := TypeError.

Inductive outcome (A : Type) : Type :=
  | Return (a : A)
  | Raise (e : exn).
Arguments Return {A} a.
Arguments Raise {A} e.

(** [CoderTuple] called on the unpacked items: the named tuple takes
    exactly its two fields. *)
Definition CoderTuple (items : list object) : outcome object :=
  match items with
  | [encode; decode] => Return (OCoderTuple encode decode)
  | _ => Raise TypeError
  end.

(** The items that [*raw_coder] unpacks. *)
Definition tuple_items (o : object) : list object :=
  match o with
  | OTuple items | OTupleInstance _ items _ => items
  | OCoderTuple e d => [e; d]
  | _ => []
  end.

Definition coderize (raw_coder : object) : outcome object :=
  if isinstance_Coder raw_coder then Return raw_coder
  else if isinstance_str raw_coder then Raise TypeError
  else if isinstance_tuple raw_coder then CoderTuple (tuple_items raw_coder)
  else if hasattr raw_coder "encode" && hasattr raw_coder "decode" then
    CoderTuple [default ONone (getattr raw_coder "encode");
                default ONone (getattr raw_coder "decode")]
  else Raise TypeError.

(** A coder name is [None] or a string. *)
Definition coder_name : Type := option string.

(** [Registry]: the dict [coders]. *)
Record Registry : Type := MkRegistry { coders : gmap coder_name object }.

(** [Registry.register]: the outcome and the registry afterwards. *)
Definition register (name : coder_name) (raw_coder : object) (self : Registry) :
    outcome unit * Registry :=
  match coderize raw_coder with
  | Return coder => (Return tt, MkRegistry (<[name := coder]> (coders self)))
  | Raise e => (Raise e, self)
  end.

(** [Registry.get]: [dict.get], [None] for an unregistered name. *)
Definition get (name : coder_name) (self : Registry) : option object :=
  coders self !! name.

(** The three module-level [registry.register] calls on [Registry()]. *)
Definition registry : Registry :=
  let r := MkRegistry ∅ in
  let r := (register None (OTuple [OFunc Fbypass; OFunc Fbypass]) r).2 in
  let r := (register (Some "json") JsonCoder r).2 in
  (register (Some "pickle") (OTuple [OFunc Fpickle_dumps; OFunc Fpickle_loads]) r).2.



End Coder.

(** * Specification of the LRU engine *)

Module LruModel.
Import LruCache.

(** ** The circular list in the store *)

(** The address of the first, or of the last, link of [ns]; [d] when [ns]
    is empty. *)
Definition hd_addr (ns : list node) (d : addr) : addr := from_option fst d (head ns).
Definition last_addr (ns : list node) (d : addr) : addr := from_option fst d (last ns).

(** [seg h p ns n]: the links of [ns] are chained in this order in [h], the
    first one pointing back to [p] and the last one forward to [n]. *)
Fixpoint seg (h : gmap addr link) (p : addr) (ns : list node) (n : addr) : Prop :=
  match ns with
  | [] => True
  | x :: rest =>
      h !! x.1 = Some (Link p (hd_addr rest n) x.2.1 x.2.2) ∧ seg h x.1 rest n
  end.

(** [Ring h r ns]: in [h], the root [r] and the links [ns] form one cycle
    [r, ns, r], the root holding no key and no result. *)
Record Ring (h : gmap addr link) (r : addr) (ns : list node) : Prop := {
  ring_root : h !! r = Some (Link (last_addr ns r) (hd_addr ns r) PyNone PyNone);
  ring_seg : seg h r ns r;
  ring_nodup : NoDup (r :: ns.*1)
}.

(** ** The invariant of every reachable state *)

(** The result that a call sets for [key], if it is a [set] on [key]. *)
Definition set_of (key : pyobj) (c : call) : option pyobj :=
  match c with
  | CSet k v => if decide (k = key) then Some v else None
  | _ => None
  end.

(** The result passed by the latest [set(key, _)] of a sequence of calls. *)
Definition last_set (cs : list call) (key : pyobj) : option pyobj :=
  last (omap (set_of key) cs).

(** [Sound m s ns]: the links [ns] form the ring of [s], every entry of the
    dict designates a link of the ring that holds the same key, with the
    result [m] records for it, and a full engine has a link to evict.
    Deleted keys may leave links behind: the ring may hold more links than
    the dict has keys. *)
Record Sound (m : pyobj → option pyobj) (s : t) (ns : list node) : Prop := {
  sound_ring : Ring (heap s) (root s) ns;
  sound_cache : ∀ k a, cache s !! k = Some a → ∃ v, (a, (k, v)) ∈ ns ∧ m k = Some v;
  sound_full : FULL (stat s) = true → ns ≠ []
}.

(** [m] after [set(key, result)]. *)
Definition record (key result : pyobj) (m : pyobj → option pyobj) :
    pyobj → option pyobj :=
  λ k, if decide (k = key) then Some result else m k.

(** ** The invariant of the states reached without [delete] *)

(** The dict entries that the links [ns] stand for. *)
Definition entries (ns : list node) : list (pyobj * addr) :=
  (λ n : node, (n.2.1, n.1)) <$> ns.

(** [Rep s ns]: the links [ns] form the ring of [s], their keys are pairwise
    distinct and the dict maps exactly these keys, each to its link. *)
Record Rep (s : t) (ns : list node) : Prop := {
  rep_ring : Ring (heap s) (root s) ns;
  rep_cache : cache s = list_to_map (entries ns);
  rep_keys : NoDup (entries ns).*1;
  rep_full : FULL (stat s) = true → ns ≠ []
}.

(** ** The engine as a list of items *)

(** The result of [key] in a list of items, its items without [key], and
    its items with the result of [key] replaced. *)
Fixpoint assoc (key : pyobj) (l : list (pyobj * pyobj)) : option pyobj :=
  match l with
  | [] => None
  | i :: l => if decide (i.1 = key) then Some i.2 else assoc key l
  end.

Definition drop_key (key : pyobj) (l : list (pyobj * pyobj)) : list (pyobj * pyobj) :=
  filter (λ i, i.1 ≠ key) l.

Definition replace_key (key v : pyobj) (l : list (pyobj * pyobj)) :
    list (pyobj * pyobj) :=
  (λ i, if decide (i.1 = key) then (key, v) else i) <$> l.

(** What the engine does, seen on the list of its items (least recently
    used first), its [FULL] flag and its two counters. *)
Record model : Type := Model {
  m_items : list (pyobj * pyobj);
  m_full : bool;
  m_hits : Z;
  m_misses : Z
}.

(** A new engine, and an engine after [clear]. *)
Definition m_init : model := Model [] false 0 0.

(** [get]: a hit moves the item to the end of the list. *)
Definition m_get (key : pyobj) (a : model) : pyobj * model :=
  match assoc key (m_items a) with
  | Some v =>
      (v, Model (drop_key key (m_items a) ++ [(key, v)]) (m_full a)
            (m_hits a + 1) (m_misses a))
  | None => (SENTINEL, Model (m_items a) (m_full a) (m_hits a) (m_misses a + 1))
  end.

(** [set] with [maxsize = N]: a held key keeps its place; a new key goes
    to the end, in the place of the first item when the engine is full. *)
Definition m_set (N : Z) (key result : pyobj) (a : model) : model :=
  match assoc key (m_items a) with
  | Some _ =>
      Model (replace_key key result (m_items a)) (m_full a) (m_hits a) (m_misses a)
  | None =>
      if m_full a then
        Model (tail (m_items a) ++ [(key, result)]) true (m_hits a) (m_misses a)
      else
        Model (m_items a ++ [(key, result)])
          (bool_decide (N ≤ Z.of_nat (length (m_items a) + 1)))
          (m_hits a) (m_misses a)
  end.

(** [delete] has no counterpart in the list model, which is used for
    sequences of calls without [delete] only. *)
Definition m_exec (N : Z) (a : model) (c : call) : model :=
  match c with
  | CGet key => (m_get key a).2
  | CSet key result => m_set N key result a
  | CDelete _ => a
  | CClear => m_init
  end.

Definition m_run (N : Z) (cs : list call) : model := foldl (m_exec N) m_init cs.

(** The engine [s], built with [maxsize = N], stands for the list [a]. *)
Definition sim (N : Z) (s : t) (a : model) : Prop :=
  maxsize s = N ∧
  stat s = Stat (m_full a) (m_hits a) (m_misses a) ∧
  ∃ ns, Rep s ns ∧ ns.*2 = m_items a.

(** Sequences of calls without [delete]. *)
Definition no_delete (cs : list call) : Prop := Forall (λ c, is_delete c = false) cs.

(** The same, as a test. *)
Definition delete_free (cs : list call) : bool :=
  forallb (λ c, negb (is_delete c)) cs.

(** The bound that the list model keeps: [maxsize] items, or one item when
    [maxsize] is smaller than one. *)
Definition m_ok (N : Z) (a : model) : Prop :=
  (m_full a = true → m_items a ≠ []) ∧
  (m_full a = false → Z.of_nat (length (m_items a)) < Z.max N 1) ∧
  Z.of_nat (length (m_items a)) ≤ Z.max N 1.

(** The calls [set(k, v)] for a list of pairs. *)
Definition sets (kvs : list (pyobj * pyobj)) : list call :=
  (λ kv, CSet kv.1 kv.2) <$> kvs.

(** ** Counting calls *)

(** The number of [get] calls since the latest [clear]. *)
Definition gets_since_clear (cs : list call) : Z :=
  foldl (λ n c, match c with CGet _ => n + 1 | CClear => 0 | _ => n end) 0 cs.

(** The bound on the number of entries: [maxsize], or one when [maxsize] is
    smaller than one, not yet reached while the engine is not full. *)
Definition within_capacity (s : t) : Prop :=
  cache_len s ≤ Z.max (maxsize s) 1 ∧
  (FULL (stat s) = false → cache_len s < Z.max (maxsize s) 1).

End LruModel.

(** * Verification of the LRU engine *)

Module LruFacts.
Import LruCache LruModel.

(** ** Representation of the circular list *)

Lemma hd_addr_app l1 l2 d : hd_addr (l1 ++ l2) d = hd_addr l1 (hd_addr l2 d).
Proof. by destruct l1. Qed.

Lemma last_addr_app l1 l2 d : last_addr (l1 ++ l2) d = last_addr l2 (last_addr l1 d).
Proof.
  unfold last_addr. destruct l2 as [|x l2 _] using rev_ind.
  - by rewrite app_nil_r.
  - by rewrite app_assoc, !last_snoc.
Qed.

Lemma last_addr_cons x l d : last_addr (x :: l) d = last_addr l x.1.
Proof. apply (last_addr_app [x] l d). Qed.

Lemma last_addr_snoc l x d : last_addr (l ++ [x]) d = x.1.
Proof. by rewrite last_addr_app. Qed.

Lemma seg_app h p l1 l2 n :
  seg h p (l1 ++ l2) n ↔ seg h p l1 (hd_addr l2 n) ∧ seg h (last_addr l1 p) l2 n.
Proof.
  revert p. induction l1 as [|x l1 IH]; intros p; simpl.
  - tauto.
  - rewrite IH, hd_addr_app, last_addr_cons. tauto.
Qed.

Lemma seg_frame h h' p ns n :
  (∀ a, a ∈ ns.*1 → h' !! a = h !! a) → seg h p ns n → seg h' p ns n.
Proof.
  revert p. induction ns as [|x ns IH]; intros p Hf; simpl; [done|].
  intros [Hx Hs]. split.
  - rewrite Hf; [done|]. simpl. left.
  - apply IH; [|done]. intros a Ha. apply Hf. simpl. by right.
Qed.

Lemma seg_insert h p ns n a l :
  a ∉ ns.*1 → seg h p ns n → seg (<[a := l]> h) p ns n.
Proof.
  intros Ha. apply seg_frame. intros a' Ha'.
  apply lookup_insert_ne. intros ->. done.
Qed.

Lemma seg_elem h p ns n x :
  seg h p ns n → x ∈ ns → ∃ p' n', h !! x.1 = Some (Link p' n' x.2.1 x.2.2).
Proof.
  revert p. induction ns as [|y ns IH]; intros p; simpl.
  - intros _ Hx. by apply elem_of_nil in Hx.
  - intros [Hy Hs] [->|Hx]%elem_of_cons; eauto.
Qed.

Lemma hd_addr_nil d : hd_addr [] d = d.
Proof. done. Qed.

Lemma hd_addr_cons x l d : hd_addr (x :: l) d = x.1.
Proof. done. Qed.

Lemma last_addr_nil d : last_addr [] d = d.
Proof. done. Qed.

Lemma Ring_nil h r : h !! r = Some (Link r r PyNone PyNone) → Ring h r [].
Proof.
  intros Hr. split; simpl; [done|done|]. apply NoDup_singleton.
Qed.

Lemma NoDup_app_cons {A} (l : list A) x k :
  NoDup (l ++ x :: k) ↔ (x ∉ l) ∧ (x ∉ k) ∧ NoDup (l ++ k).
Proof.
  rewrite <- Permutation_middle, NoDup_cons, not_elem_of_app. tauto.
Qed.

(** Splitting the absence of duplicates into facts about single addresses. *)
Ltac nodup_split :=
  rewrite ?fmap_app, ?fmap_cons, <- ?app_assoc; simpl;
  rewrite ?NoDup_cons, ?NoDup_app_cons, ?not_elem_of_app, ?not_elem_of_cons,
    ?not_elem_of_app, ?not_elem_of_cons, ?app_nil_r.

Ltac nodup_solve :=
  repeat match goal with
  | H : NoDup _ |- _ => revert H
  | H : _ ∉ _ |- _ => revert H
  end;
  clear; nodup_split; intros; destruct_and?; split_and?;
  first [ done | congruence | by apply not_elem_of_nil | by apply NoDup_nil_2 ].

Ltac norm_addr :=
  repeat (rewrite ?last_addr_app, ?hd_addr_app, ?last_addr_cons, ?last_addr_nil,
    ?hd_addr_nil, ?hd_addr_cons in *; simpl in * ).

Lemma unlink_ring h r l1 x l2 :
  Ring h r (l1 ++ x :: l2) →
  let p := last_addr l1 r in
  let n := hd_addr l2 r in
  ∃ lp ln,
    h !! x.1 = Some (Link p n x.2.1 x.2.2) ∧
    h !! p = Some lp ∧
    <[p := set_NEXT n lp]> h !! n = Some ln ∧
    Ring (<[n := set_PREV p ln]> (<[p := set_NEXT n lp]> h)) r (l1 ++ l2) ∧
    (<[n := set_PREV p ln]> (<[p := set_NEXT n lp]> h)) !! x.1 = h !! x.1.
Proof.
  intros [Hr Hs Hnd]. simpl.
  apply seg_app in Hs as [Hs1 [Hx Hs2]]. simpl in Hx.
  destruct l1 as [|y l1 _] using rev_ind; destruct l2 as [|z l2].
  - norm_addr.
    assert (x.1 ≠ r) by nodup_solve.
    eexists _, _. split_and!; [done|done|by rewrite lookup_insert_eq| |].
    + apply Ring_nil. by rewrite lookup_insert_eq.
    + by rewrite !lookup_insert_ne.
  - norm_addr. destruct Hs2 as [Hz Hs2].
    assert (x.1 ≠ r) by nodup_solve. assert (z.1 ≠ r) by nodup_solve.
    assert (x.1 ≠ z.1) by nodup_solve.
    eexists _, _. split_and!; [done|done|by rewrite lookup_insert_ne| |].
    + split; norm_addr.
      * rewrite lookup_insert_ne, lookup_insert_eq by done. done.
      * split; [by rewrite lookup_insert_eq|].
        apply seg_insert; [nodup_solve|]. apply seg_insert; [nodup_solve|]. done.
      * nodup_solve.
    + by rewrite !lookup_insert_ne.
  - norm_addr. apply seg_app in Hs1 as [Hs1 [Hy _]]. norm_addr.
    assert (x.1 ≠ r) by nodup_solve. assert (y.1 ≠ r) by nodup_solve.
    assert (x.1 ≠ y.1) by nodup_solve.
    eexists _, _. split_and!; [done|done|by rewrite lookup_insert_ne| |].
    + rewrite app_nil_r. split; norm_addr.
      * rewrite lookup_insert_eq. done.
      * apply seg_app. norm_addr. split.
        -- apply seg_insert; [nodup_solve|]. apply seg_insert; [nodup_solve|]. done.
        -- split; [|done]. rewrite lookup_insert_ne, lookup_insert_eq by done. done.
      * nodup_solve.
    + by rewrite !lookup_insert_ne.
  - norm_addr. apply seg_app in Hs1 as [Hs1 [Hy _]]. destruct Hs2 as [Hz Hs2]. norm_addr.
    assert (x.1 ≠ r) by nodup_solve. assert (y.1 ≠ r) by nodup_solve.
    assert (z.1 ≠ r) by nodup_solve. assert (y.1 ≠ z.1) by nodup_solve.
    assert (x.1 ≠ y.1) by nodup_solve. assert (x.1 ≠ z.1) by nodup_solve.
    eexists _, _. split_and!; [done|done|by rewrite lookup_insert_ne| |].
    + split; norm_addr.
      * rewrite !lookup_insert_ne by done. done.
      * rewrite <- app_assoc. apply seg_app. norm_addr. split.
        -- apply seg_insert; [nodup_solve|]. apply seg_insert; [nodup_solve|]. done.
        -- split.
           ++ rewrite lookup_insert_ne, lookup_insert_eq by done. done.
           ++ split; [by rewrite lookup_insert_eq|].
              apply seg_insert; [nodup_solve|]. apply seg_insert; [nodup_solve|]. done.
      * nodup_solve.
    + by rewrite !lookup_insert_ne.
Qed.

(** Threading a link [x], already pointing to the last link and to the
    root, between these two. *)
Lemma link_ring h r ns x :
  Ring h r ns →
  x.1 ∉ r :: ns.*1 →
  let last := last_addr ns r in
  ∃ ll lr,
    x.1 ≠ last ∧ x.1 ≠ r ∧
    h !! last = Some ll ∧
    <[last := set_NEXT x.1 ll]> h !! r = Some lr ∧
    Ring (<[r := set_PREV x.1 lr]>
            (<[last := set_NEXT x.1 ll]>
               (<[x.1 := Link last r x.2.1 x.2.2]> h))) r (ns ++ [x]).
Proof.
  intros [Hr Hs Hnd] Hx. simpl.
  assert (NoDup (r :: (ns ++ [x]).*1)) as Hnd'.
  { nodup_solve. }
  destruct ns as [|z ns _] using rev_ind.
  - norm_addr. assert (x.1 ≠ r) by nodup_solve.
    eexists _, _. split_and!; [done|done|done|by rewrite lookup_insert_eq|].
    split; norm_addr.
    + by rewrite lookup_insert_eq.
    + split; [|done]. rewrite !lookup_insert_ne, lookup_insert_eq by done. done.
    + nodup_solve.
  - norm_addr. apply seg_app in Hs as [Hs [Hz _]]. norm_addr.
    assert (x.1 ≠ r) by nodup_solve. assert (x.1 ≠ z.1) by nodup_solve.
    assert (z.1 ≠ r) by nodup_solve.
    eexists _, _. split_and!; [done|done|done|by rewrite lookup_insert_ne|].
    split; norm_addr.
    + by rewrite lookup_insert_eq.
    + rewrite <- app_assoc. apply seg_app. norm_addr. split.
      * do 3 (apply seg_insert; [nodup_solve|]). done.
      * split.
        -- rewrite lookup_insert_ne, lookup_insert_eq by done. done.
        -- split; [|done]. rewrite !lookup_insert_ne, lookup_insert_eq by done. done.
    + nodup_solve.
Qed.

(** Reusing the root as the newest link and the oldest link as the root. *)
Lemma rotate_ring h r y rest k v :
  Ring h r (y :: rest) →
  ∃ lr ly,
    y.1 ≠ r ∧
    h !! r = Some lr ∧ NEXT lr = y.1 ∧
    h !! y.1 = Some ly ∧ KEY ly = y.2.1 ∧
    Ring (<[y.1 := set_RESULT PyNone (set_KEY PyNone ly)]>
            (<[y.1 := set_KEY PyNone ly]>
               (<[r := set_RESULT v (set_KEY k lr)]>
                  (<[r := set_KEY k lr]> h)))) y.1 (rest ++ [(r, (k, v))]).
Proof.
  intros [Hr [Hy Hs] Hnd]. norm_addr.
  assert (y.1 ≠ r) by nodup_solve.
  eexists _, _. split_and!; [done|done|done|done|done|].
  split; norm_addr.
  - by rewrite lookup_insert_eq.
  - apply seg_app. norm_addr. split.
    + do 4 (apply seg_insert; [nodup_solve|]). done.
    + split; [|done]. rewrite !lookup_insert_ne, lookup_insert_eq by done. done.
  - nodup_solve.
Qed.

(** Overwriting the result of a link. *)
Lemma update_ring h r l1 x l2 v :
  Ring h r (l1 ++ x :: l2) →
  ∃ lx,
    h !! x.1 = Some lx ∧ RESULT lx = x.2.2 ∧
    Ring (<[x.1 := set_RESULT v lx]> h) r (l1 ++ (x.1, (x.2.1, v)) :: l2).
Proof.
  intros [Hr Hs Hnd].
  apply seg_app in Hs as [Hs1 [Hx Hs2]]. simpl in Hx.
  assert (x.1 ≠ r) by nodup_solve.
  eexists. split_and!; [done|done|].
  split.
  - rewrite lookup_insert_ne by done. by norm_addr.
  - apply seg_app. split; [|split].
    + apply seg_insert; [nodup_solve|]. done.
    + simpl. by rewrite lookup_insert_eq.
    + apply seg_insert; [nodup_solve|]. done.
  - revert Hnd. by rewrite !fmap_app, !fmap_cons.
Qed.

(** ** The operations on a well-formed ring *)

Ltac unfold_M :=
  cbv [get set delete clear mbind M_bind gets load store alloc modify cache_del
       mret M_ret]; simpl.

Lemma get_miss key s :
  cache s !! key = None →
  get key s =
    (Return SENTINEL,
     with_stat (Stat (FULL (stat s)) (HITS (stat s)) (MISSES (stat s) + 1)) s).
Proof. intros Hk. unfold_M. by rewrite Hk. Qed.

Lemma get_hit key s l1 x l2 :
  Ring (heap s) (root s) (l1 ++ x :: l2) →
  cache s !! key = Some x.1 →
  ∃ h',
    get key s =
      (Return x.2.2,
       Engine (maxsize s) (cache s) h' (root s)
         (Stat (FULL (stat s)) (HITS (stat s) + 1) (MISSES (stat s)))) ∧
    Ring h' (root s) (l1 ++ l2 ++ [x]).
Proof.
  intros HR Hk.
  destruct (unlink_ring _ _ _ _ _ HR) as (lp & ln & Hx & Hp & Hn & HR2 & Hx2).
  assert (x.1 ∉ root s :: (l1 ++ l2).*1) as Hfresh.
  { destruct HR as [_ _ Hnd]. nodup_solve. }
  destruct (link_ring _ _ _ x HR2 Hfresh) as (ll & lr & Hxl & Hxr & Hl & Hr & HR3).
  pose proof (ring_root _ _ _ HR2) as Hroot.
  eexists. split; [|rewrite (assoc_L (++)); exact HR3].
  unfold_M. rewrite Hk. simpl. rewrite Hx. simpl. rewrite Hp. simpl. rewrite Hn. simpl.
  rewrite Hroot. simpl. rewrite Hl. simpl. rewrite Hr. simpl.
  rewrite !lookup_insert_ne, Hx2, Hx by done. simpl.
  rewrite lookup_insert_eq. simpl.
  unfold with_stat, with_heap; simpl.
  rewrite insert_insert_eq.
  rewrite (insert_insert_ne _ x.1 (root s)) by done.
  rewrite (insert_insert_ne _ x.1 (last_addr (l1 ++ l2) (root s))) by done.
  done.
Qed.

Lemma set_existing key result s l1 x l2 :
  Ring (heap s) (root s) (l1 ++ x :: l2) →
  cache s !! key = Some x.1 →
  ∃ h',
    set key result s = (Return tt, with_heap h' s) ∧
    Ring h' (root s) (l1 ++ (x.1, (x.2.1, result)) :: l2).
Proof.
  intros HR Hk.
  destruct (update_ring _ _ _ _ _ result HR) as (lx & Hx & _ & HR').
  eexists. split; [|exact HR'].
  unfold_M. rewrite Hk. simpl. by rewrite Hx.
Qed.

Lemma ring_addr_dom h r ns a : Ring h r ns → a ∈ r :: ns.*1 → a ∈ dom h.
Proof.
  intros [Hr Hs _] [->|Ha]%elem_of_cons.
  - apply elem_of_dom. eauto.
  - apply list_elem_of_fmap in Ha as (x & -> & Hx).
    destruct (seg_elem _ _ _ _ _ Hs Hx) as (p' & n' & Hl).
    apply elem_of_dom. eauto.
Qed.

Lemma set_insert key result s ns :
  Ring (heap s) (root s) ns →
  cache s !! key = None →
  FULL (stat s) = false →
  ∃ h' a,
    (a ∉ root s :: ns.*1) ∧
    set key result s =
      (Return tt,
       Engine (maxsize s) (<[key := a]> (cache s)) h' (root s)
         (Stat (bool_decide (maxsize s ≤ Z.of_nat (size (<[key := a]> (cache s)))))
            (HITS (stat s)) (MISSES (stat s)))) ∧
    Ring h' (root s) (ns ++ [(a, (key, result))]).
Proof.
  intros HR Hk Hfull.
  set (a := fresh (dom (heap s))).
  assert (a ∉ root s :: ns.*1) as Hfresh.
  { intros Ha. apply (ring_addr_dom _ _ _ _ HR) in Ha. by apply is_fresh in Ha. }
  destruct (link_ring _ _ _ (a, (key, result)) HR Hfresh)
    as (ll & lr & Hxl & Hxr & Hl & Hr & HR3).
  simpl in *.
  pose proof (ring_root _ _ _ HR) as Hroot.
  eexists _, a. split; [done|]. split; [|exact HR3].
  unfold_M. rewrite Hk, Hfull. simpl. rewrite Hroot. simpl. fold a.
  rewrite lookup_insert_ne, Hl by done. simpl.
  rewrite (insert_insert_ne _ (last_addr ns (root s)) a) by done.
  rewrite lookup_insert_ne, Hr by done. simpl.
  rewrite <- (insert_insert_ne _ (last_addr ns (root s)) a) by done.
  done.
Qed.

Lemma set_full key result s y rest :
  Ring (heap s) (root s) (y :: rest) →
  cache s !! key = None →
  FULL (stat s) = true →
  ∃ h',
    Ring h' y.1 (rest ++ [(root s, (key, result))]) ∧
    set key result s =
      match cache s !! y.2.1 with
      | Some _ =>
          (Return tt,
           Engine (maxsize s) (<[key := root s]> (base.delete y.2.1 (cache s)))
             h' y.1 (stat s))
      | None => (Raise KeyError, Engine (maxsize s) (cache s) h' y.1 (stat s))
      end.
Proof.
  intros HR Hk Hfull.
  destruct (rotate_ring _ _ _ _ key result HR)
    as (lr & ly & Hyr & Hr & Hnext & Hy & Hkey & HR').
  eexists. split; [exact HR'|].
  unfold_M. rewrite Hk, Hfull. simpl. rewrite Hr. simpl.
  rewrite lookup_insert_eq. simpl. rewrite lookup_insert_eq. simpl. rewrite Hnext.
  rewrite !lookup_insert_ne, Hy by done. simpl.
  rewrite !lookup_insert_ne, Hy by done. simpl.
  rewrite lookup_insert_eq. simpl. rewrite Hkey.
  by destruct (cache s !! y.2.1).
Qed.

Lemma clear_spec s l :
  heap s !! root s = Some l →
  clear s =
    (Return tt,
     Engine (maxsize s) ∅
       (<[root s := Link (root s) (root s) PyNone PyNone]> (heap s)) (root s)
       (Stat false 0 0)) ∧
  Ring (<[root s := Link (root s) (root s) PyNone PyNone]> (heap s)) (root s) [].
Proof.
  intros Hl. split.
  - unfold_M. by rewrite Hl.
  - apply Ring_nil. by rewrite lookup_insert_eq.
Qed.

Lemma delete_spec key s l :
  heap s !! root s = Some l →
  delete key s =
    match cache s !! key with
    | Some _ =>
        (Return tt,
         Engine (maxsize s) (base.delete key (cache s)) (heap s) (root s)
           (Stat false (HITS (stat s)) (MISSES (stat s))))
    | None => (Raise KeyError, s)
    end.
Proof.
  intros Hl. unfold_M. rewrite Hl. simpl. by destruct (cache s !! key).
Qed.

(** ** An invariant of every reachable state *)

Lemma last_set_snoc cs c key :
  last_set (cs ++ [c]) key =
    match set_of key c with Some v => Some v | None => last_set cs key end.
Proof.
  unfold last_set. rewrite omap_app. simpl.
  destruct (set_of key c); simpl.
  - by rewrite last_snoc.
  - by rewrite app_nil_r.
Qed.

Lemma Sound_init maxsize m : Sound m (init maxsize) [].
Proof.
  split; simpl.
  - apply Ring_nil. apply lookup_singleton_eq.
  - intros k a' Hk. by rewrite lookup_empty in Hk.
  - done.
Qed.

Lemma Sound_root m s ns : Sound m s ns → is_Some (heap s !! root s).
Proof. intros [[Hr _ _] _ _]. eauto. Qed.

Lemma Sound_get m s ns key :
  Sound m s ns → ∃ ns', Sound m (get key s).2 ns'.
Proof.
  intros [HR Hc Hf].
  destruct (cache s !! key) as [a'|] eqn:Hk.
  - destruct (Hc _ _ Hk) as (v & Hin & Hm).
    apply list_elem_of_split in Hin as (l1 & l2 & ->).
    destruct (get_hit key s l1 (a', (key, v)) l2 HR Hk) as (h' & -> & HR').
    exists (l1 ++ l2 ++ [(a', (key, v))]). split; simpl; [done| |].
    + intros k a0 [v0 [Hin Hm0]]%Hc. exists v0. split; [|done].
      revert Hin. clear. set_solver.
    + intros _. destruct l1, l2; done.
  - rewrite (get_miss _ _ Hk). exists ns. by split.
Qed.

Lemma Sound_clear m s ns : Sound m s ns → Sound m (clear s).2 [].
Proof.
  intros Hs. destruct (Sound_root _ _ _ Hs) as [l Hl].
  destruct (clear_spec s l Hl) as [-> HR]. split; simpl; [done| |done].
  intros k a' Hk. by rewrite lookup_empty in Hk.
Qed.

Lemma Sound_delete m s ns key : Sound m s ns → Sound m (delete key s).2 ns.
Proof.
  intros Hs. destruct (Sound_root _ _ _ Hs) as [l Hl].
  rewrite (delete_spec key s l Hl). destruct Hs as [HR Hc Hf].
  destruct (cache s !! key) eqn:Hk; [|by split].
  split; simpl; [done| |done].
  intros k a' [_ Hk']%lookup_delete_Some. eauto.
Qed.

Lemma Sound_set m s ns key result :
  Sound m s ns → ∃ ns', Sound (record key result m) (set key result s).2 ns'.
Proof.
  intros [HR Hc Hf]. unfold record.
  destruct (cache s !! key) as [a'|] eqn:Hk.
  - destruct (Hc _ _ Hk) as (v & Hin & Hm).
    apply list_elem_of_split in Hin as (l1 & l2 & ->).
    destruct (set_existing key result s l1 (a', (key, v)) l2 HR Hk) as (h' & -> & HR').
    eexists. split; simpl; [exact HR'| |by destruct l1].
    intros k a0 Hk0. destruct (decide (k = key)) as [->|Hne].
    + rewrite Hk in Hk0. injection Hk0 as <-. exists result. split; [|done].
      clear. set_solver.
    + destruct (Hc _ _ Hk0) as (v0 & Hin & Hm0). exists v0. split; [|done].
      revert Hin Hne. clear. rewrite !elem_of_app, !elem_of_cons. naive_solver.
  - destruct (FULL (stat s)) eqn:Hfull.
    + destruct ns as [|y rest]; [by destruct Hf|].
      destruct (set_full key result s y rest HR Hk Hfull) as (h' & HR' & ->).
      exists (rest ++ [(root s, (key, result))]).
      destruct (cache s !! y.2.1) eqn:Hy; (split; simpl; [done| |by destruct rest]).
      * intros k a0 Hk0. destruct (decide (k = key)) as [->|Hne].
        -- rewrite lookup_insert_eq in Hk0. injection Hk0 as <-.
           exists result. split; [|done]. clear. set_solver.
        -- rewrite lookup_insert_ne in Hk0 by done.
           apply lookup_delete_Some in Hk0 as [Hky Hk0].
           destruct (Hc _ _ Hk0) as (v0 & Hin & Hm0). exists v0. split; [|done].
           apply elem_of_cons in Hin as [<-|Hin]; [done|].
           apply elem_of_app. by left.
      * intros k a0 Hk0. destruct (decide (k = key)) as [->|Hne]; [congruence|].
        destruct (Hc _ _ Hk0) as (v0 & Hin & Hm0). exists v0. split; [|done].
        apply elem_of_cons in Hin as [<-|Hin]; [simpl in Hy; congruence|].
        apply elem_of_app. by left.
    + destruct (set_insert key result s ns HR Hk Hfull) as (h' & a' & Hfresh & -> & HR').
      eexists. split; simpl; [exact HR'| |by destruct ns].
      intros k a0 Hk0. destruct (decide (k = key)) as [->|Hne].
      * rewrite lookup_insert_eq in Hk0. injection Hk0 as <-.
        exists result. split; [|done]. clear. set_solver.
      * rewrite lookup_insert_ne in Hk0 by done.
        destruct (Hc _ _ Hk0) as (v0 & Hin & Hm0). exists v0. split; [|done].
        apply elem_of_app. by left.
Qed.

(** Every state reached from a new engine by any calls is sound with
    respect to the results that the calls have set. *)
Lemma Sound_run maxsize cs :
  ∃ ns, Sound (last_set cs) (run (init maxsize) cs) ns.
Proof.
  induction cs as [|c cs IH] using rev_ind.
  - exists []. apply Sound_init.
  - destruct IH as [ns Hs]. unfold run in *. rewrite foldl_snoc.
    set (s := foldl exec (init maxsize) cs) in *.
    assert (∀ m' s' ns', (∀ k, m' k = last_set (cs ++ [c]) k) →
      Sound m' s' ns' → Sound (last_set (cs ++ [c])) s' ns') as Hext.
    { intros m' s' ns' Hm [H1 H2 H3]. split; [done| |done].
      intros k a' Hk. destruct (H2 _ _ Hk) as (v & ? & ?). exists v.
      by rewrite <- Hm. }
    destruct c as [key|key result|key|]; simpl.
    + destruct (Sound_get _ _ _ key Hs) as [ns' Hs']. exists ns'.
      eapply Hext; [|exact Hs']. intros k. by rewrite last_set_snoc.
    + destruct (Sound_set _ _ _ key result Hs) as [ns' Hs']. exists ns'.
      eapply Hext; [|exact Hs']. intros k. rewrite last_set_snoc. unfold record. simpl.
      destruct (decide (k = key)) as [->|Hne].
      * by rewrite decide_True.
      * by rewrite decide_False.
    + exists ns. eapply Hext; [|by apply Sound_delete].
      intros k. by rewrite last_set_snoc.
    + exists []. eapply Hext; [|by eapply Sound_clear].
      intros k. by rewrite last_set_snoc.
Qed.

(** ** The engine as a list of items, without [delete] *)

Lemma entries_keys ns : (entries ns).*1 = ns.*2.*1.
Proof. unfold entries. rewrite <- !list_fmap_compose. done. Qed.

Lemma entries_app l1 l2 : entries (l1 ++ l2) = entries l1 ++ entries l2.
Proof. apply fmap_app. Qed.

Lemma Rep_lookup s ns x : Rep s ns → x ∈ ns → cache s !! x.2.1 = Some x.1.
Proof.
  intros [_ -> Hnd _] Hx. apply elem_of_list_to_map_1; [done|].
  unfold entries. apply list_elem_of_fmap. by exists x.
Qed.

Lemma Rep_lookup_None s ns key : Rep s ns → key ∉ ns.*2.*1 → cache s !! key = None.
Proof.
  intros [_ -> _ _] Hk. apply not_elem_of_list_to_map_1. by rewrite entries_keys.
Qed.

Lemma Rep_size s ns : Rep s ns → size (cache s) = length ns.
Proof.
  intros [_ -> Hnd _]. rewrite map_size_list_to_map by done.
  unfold entries. by rewrite length_fmap.
Qed.

(** *** Association lists *)

Lemma assoc_None key l : assoc key l = None ↔ key ∉ l.*1.
Proof.
  induction l as [|i l IH]; simpl.
  - split; [intros _; apply not_elem_of_nil|done].
  - rewrite not_elem_of_cons. destruct (decide (i.1 = key)) as [->|Hne].
    + split; [done|]. intros [? _]. done.
    + rewrite IH. split; [|tauto]. intros ?. split; [congruence|done].
Qed.

Lemma assoc_Some key v l :
  assoc key l = Some v → ∃ l1 l2, l = l1 ++ (key, v) :: l2 ∧ key ∉ l1.*1.
Proof.
  induction l as [|i l IH]; simpl; [done|].
  destruct (decide (i.1 = key)) as [<-|Hne].
  - intros [= <-]. exists [], l. split; [by destruct i|]. apply not_elem_of_nil.
  - intros (l1 & l2 & -> & Hk)%IH. exists (i :: l1), l2. split; [done|].
    simpl. apply not_elem_of_cons. split; [congruence|done].
Qed.

Lemma drop_key_notin key l : key ∉ l.*1 → drop_key key l = l.
Proof.
  unfold drop_key. induction l as [|i l IH]; simpl; [done|].
  rewrite not_elem_of_cons. intros [Hne Hk].
  rewrite filter_cons_True by (simpl; congruence). by rewrite IH.
Qed.

Lemma drop_key_split key v l1 l2 :
  key ∉ l1.*1 → key ∉ l2.*1 → drop_key key (l1 ++ (key, v) :: l2) = l1 ++ l2.
Proof.
  intros H1 H2. unfold drop_key. rewrite filter_app, filter_cons_False by (simpl; tauto).
  fold (drop_key key l1) (drop_key key l2). by rewrite !drop_key_notin.
Qed.

Lemma replace_key_notin key v l : key ∉ l.*1 → replace_key key v l = l.
Proof.
  induction l as [|i l IH]; simpl; [done|].
  rewrite not_elem_of_cons. intros [Hne Hk]. unfold replace_key in *. simpl.
  rewrite decide_False by congruence. by rewrite IH.
Qed.

Lemma replace_key_split key v v' l1 l2 :
  key ∉ l1.*1 → key ∉ l2.*1 →
  replace_key key v' (l1 ++ (key, v) :: l2) = l1 ++ (key, v') :: l2.
Proof.
  intros H1 H2. unfold replace_key. rewrite fmap_app, fmap_cons. simpl.
  rewrite decide_True by done.
  fold (replace_key key v' l1) (replace_key key v' l2). by rewrite !replace_key_notin.
Qed.

(** *** The list model *)

Lemma sim_init N : sim N (init N) m_init.
Proof.
  split; [done|]. split; [done|]. exists []. split; [|done].
  split; simpl; [|done|apply NoDup_nil_2|done].
  apply Ring_nil. apply lookup_singleton_eq.
Qed.

(** A list of links whose items split around [key] splits the same way. *)
Lemma nodes_split (ns : list node) l1 key v l2 :
  ns.*2 = l1 ++ (key, v) :: l2 →
  ∃ n1 a' n2, ns = n1 ++ (a', (key, v)) :: n2 ∧ n1.*2 = l1 ∧ n2.*2 = l2.
Proof.
  intros (n1 & n2' & H1 & H2 & ->)%fmap_app_inv.
  symmetry in H2. apply fmap_cons_inv in H2 as (x & n2 & Hx & H2 & ->).
  destruct x as [a' kv]. simpl in Hx. subst kv. by exists n1, a', n2.
Qed.

Lemma NoDup_keys_split (l1 l2 : list (pyobj * pyobj)) key v :
  NoDup (l1 ++ (key, v) :: l2).*1 → (key ∉ l1.*1) ∧ (key ∉ l2.*1).
Proof.
  rewrite fmap_app, fmap_cons. simpl. rewrite NoDup_app_cons. tauto.
Qed.

Lemma sim_get N s a key :
  sim N s a →
  (get key s).1 = Return (m_get key a).1 ∧ sim N (get key s).2 (m_get key a).2.
Proof.
  intros (HN & Hst & ns & HR & Hitems). unfold m_get.
  destruct (assoc key (m_items a)) as [v|] eqn:Ha.
  - apply assoc_Some in Ha as (l1 & l2 & Hl & _). rewrite Hl in *.
    destruct (nodes_split _ _ _ _ _ Hitems) as (n1 & a' & n2 & -> & H1 & H2).
    pose proof (rep_keys _ _ HR) as Hnd. rewrite entries_keys, Hitems in Hnd.
    destruct (NoDup_keys_split _ _ _ _ Hnd) as [Hk1 Hk2].
    assert (cache s !! key = Some a') as Hk.
    { apply (Rep_lookup s _ (a', (key, v)) HR). clear. set_solver. }
    destruct (get_hit key s n1 (a', (key, v)) n2 (rep_ring _ _ HR) Hk)
      as (h' & -> & HR').
    simpl. split; [done|]. split; [done|]. split; [simpl; by rewrite Hst|].
    exists (n1 ++ n2 ++ [(a', (key, v))]). simpl. split.
    + assert (n1 ++ n2 ++ [(a', (key, v))] ≡ₚ n1 ++ (a', (key, v)) :: n2) as Hp.
      { rewrite (Permutation_app_comm n2). done. }
      destruct HR as [_ Hc Hkeys Hf]. split; simpl; [done| | |].
      * rewrite Hc. apply list_to_map_proper; [done|]. unfold entries. by rewrite Hp.
      * unfold entries in *. by rewrite Hp.
      * intros _. by destruct n1, n2.
    + rewrite drop_key_split by done. rewrite !fmap_app, H1, H2. simpl. by rewrite (assoc_L (++)).
  - apply assoc_None in Ha. rewrite <- Hitems in Ha.
    rewrite (get_miss _ _ (Rep_lookup_None _ _ _ HR Ha)). simpl.
    split; [done|]. split; [done|]. split; [simpl; by rewrite Hst|].
    exists ns. split; [|done]. destruct HR. by split.
Qed.

Lemma sim_clear N s a : sim N s a → (clear s).1 = Return tt ∧ sim N (clear s).2 m_init.
Proof.
  intros (HN & Hst & ns & HR & Hitems).
  destruct (ring_root _ _ _ (rep_ring _ _ HR)) as [].
  pose proof (ring_root _ _ _ (rep_ring _ _ HR)) as Hroot.
  destruct (clear_spec s _ Hroot) as [-> HR'].
  simpl. split; [done|]. split; [done|]. split; [done|].
  exists []. split; [|done]. split; simpl; [done|done|apply NoDup_nil_2|done].
Qed.

Lemma Rep_snoc s h' r' st' ns a' key result :
  Rep s ns →
  key ∉ ns.*2.*1 →
  Ring h' r' (ns ++ [(a', (key, result))]) →
  Rep (Engine (maxsize s) (<[key := a']> (cache s)) h' r' st')
    (ns ++ [(a', (key, result))]).
Proof.
  intros [_ Hc Hkeys _] Hk HR'. rewrite <- entries_keys in Hk.
  split; simpl; [done| | |by destruct ns].
  - rewrite entries_app. simpl. rewrite list_to_map_snoc by done. by rewrite Hc.
  - rewrite entries_app, fmap_app. simpl. apply NoDup_app. split; [done|].
    split; [|apply NoDup_singleton].
    intros k Hin ->%list_elem_of_singleton. done.
Qed.

Lemma sim_set N s a key result :
  sim N s a →
  (set key result s).1 = Return tt ∧ sim N (set key result s).2 (m_set N key result a).
Proof.
  intros (HN & Hst & ns & HR & Hitems). unfold m_set.
  destruct (assoc key (m_items a)) as [v|] eqn:Ha.
  - apply assoc_Some in Ha as (l1 & l2 & Hl & _). rewrite Hl in *.
    destruct (nodes_split _ _ _ _ _ Hitems) as (n1 & a' & n2 & -> & H1 & H2).
    pose proof (rep_keys _ _ HR) as Hnd. rewrite entries_keys, Hitems in Hnd.
    destruct (NoDup_keys_split _ _ _ _ Hnd) as [Hk1 Hk2].
    assert (cache s !! key = Some a') as Hk.
    { apply (Rep_lookup s _ (a', (key, v)) HR). clear. set_solver. }
    destruct (set_existing key result s n1 (a', (key, v)) n2 (rep_ring _ _ HR) Hk)
      as (h' & -> & HR').
    simpl in *. split; [done|]. split; [done|]. split; [done|].
    exists (n1 ++ (a', (key, result)) :: n2). split.
    + destruct HR as [_ Hc Hkeys Hf].
      assert (entries (n1 ++ (a', (key, result)) :: n2)
              = entries (n1 ++ (a', (key, v)) :: n2)) as He.
      { unfold entries. by rewrite !fmap_app, !fmap_cons. }
      split; simpl; [done|by rewrite He|by rewrite He|by destruct n1].
    + rewrite replace_key_split by done. rewrite fmap_app, fmap_cons, H1, H2. done.
  - apply assoc_None in Ha. rewrite <- Hitems in Ha.
    pose proof (Rep_lookup_None _ _ _ HR Ha) as Hk.
    assert (FULL (stat s) = m_full a) as Hfull by (by rewrite Hst).
    destruct (m_full a) eqn:Hmf.
    + destruct ns as [|y rest]; [by destruct (rep_full _ _ HR Hfull)|].
      destruct (set_full key result s y rest (rep_ring _ _ HR) Hk Hfull)
        as (h' & HR' & ->).
      assert (cache s !! y.2.1 = Some y.1) as Hy.
      { apply (Rep_lookup s _ y HR). clear. set_solver. }
      rewrite Hy. simpl. split; [done|]. split; [done|].
      split; [simpl; by rewrite Hst|].
      exists (rest ++ [(root s, (key, result))]). simpl. split.
      * destruct HR as [_ Hc Hkeys Hf].
        simpl in Hkeys. apply NoDup_cons in Hkeys as [Hy1 Hkeys].
        simpl in Ha. apply not_elem_of_cons in Ha as [Hne Ha].
        rewrite <- entries_keys in Ha.
        split; simpl; [done| | |by destruct rest].
        -- rewrite entries_app. simpl. rewrite list_to_map_snoc by done.
           f_equal. rewrite Hc. simpl. rewrite delete_insert_eq.
           apply delete_id. by apply not_elem_of_list_to_map_1.
        -- rewrite entries_app, fmap_app. simpl. apply NoDup_app. split; [done|].
           split; [|apply NoDup_singleton].
           intros k Hin ->%list_elem_of_singleton. done.
      * rewrite fmap_app. simpl. rewrite <- Hitems. done.
    + destruct (set_insert key result s ns (rep_ring _ _ HR) Hk Hfull)
        as (h' & a' & Hfresh & -> & HR').
      simpl. split; [done|]. split; [done|]. split.
      * simpl. rewrite map_size_insert_None by done.
        rewrite (Rep_size _ _ HR), Hst, HN. simpl.
        rewrite <- Hitems, length_fmap. do 2 f_equal.
        by rewrite Nat.add_1_r.
      * exists (ns ++ [(a', (key, result))]). simpl. split.
        -- by apply Rep_snoc.
        -- rewrite fmap_app, Hitems. done.
Qed.

(** Without [delete], every call returns and the engine behaves as the list
    model. *)
Lemma sim_exec N s a c :
  is_delete c = false → sim N s a → returns s c = true ∧ sim N (exec s c) (m_exec N a c).
Proof.
  intros Hc Hs. destruct c as [key|key result|key|]; simpl in *; [| |done|].
  - destruct (sim_get N s a key Hs) as [-> ?]. done.
  - destruct (sim_set N s a key result Hs) as [-> ?]. done.
  - destruct (sim_clear N s a Hs) as [-> ?]. done.
Qed.

Lemma sim_run N cs : no_delete cs → sim N (run (init N) cs) (m_run N cs).
Proof.
  unfold run, m_run. induction cs as [|c cs IH] using rev_ind; intros Hnd.
  - apply sim_init.
  - apply Forall_app in Hnd as [Hnd Hc]. apply Forall_cons_1 in Hc as [Hc _].
    rewrite !foldl_snoc. by destruct (sim_exec N _ _ c Hc (IH Hnd)) as [_ H].
Qed.

(** ** The observations on a well-formed ring *)

Lemma walk_seg h r p ns fuel :
  seg h p ns r → r ∉ ns.*1 → (length ns < fuel)%nat →
  walk h r fuel (hd_addr ns r) = ns.
Proof.
  revert p fuel. induction ns as [|x ns IH]; intros p fuel Hs Hr Hlen.
  - destruct fuel; [done|]. simpl. by rewrite decide_True.
  - destruct fuel as [|fuel]; [simpl in Hlen; lia|].
    destruct Hs as [Hx Hs]. destruct x as [a' [k v]]. simpl in Hx, Hs, Hlen.
    rewrite fmap_cons in Hr. apply not_elem_of_cons in Hr as [Hne Hr]. simpl in Hne.
    rewrite hd_addr_cons. simpl.
    rewrite decide_False by congruence. rewrite Hx. simpl.
    f_equal. apply (IH a'); [done|done|lia].
Qed.

Lemma Ring_length h r ns : Ring h r ns → (length ns < size h)%nat.
Proof.
  intros HR. pose proof (ring_nodup _ _ _ HR) as Hnd.
  assert (list_to_set (r :: ns.*1) ⊆ dom h) as Hsub.
  { intros a' Ha. apply elem_of_list_to_set in Ha. by eapply ring_addr_dom. }
  apply subseteq_size in Hsub.
  rewrite size_list_to_set, size_dom in Hsub by done.
  simpl in Hsub. rewrite length_fmap in Hsub. unfold node in *. lia.
Qed.

Lemma ring_nodes_Ring s ns : Ring (heap s) (root s) ns → ring_nodes s = ns.
Proof.
  intros HR. unfold ring_nodes. rewrite (ring_root _ _ _ HR). simpl.
  apply (walk_seg _ _ (root s)).
  - apply HR.
  - pose proof (ring_nodup _ _ _ HR) as Hnd. by apply NoDup_cons in Hnd as [? _].
  - by eapply Ring_length.
Qed.

Lemma mru_key_Ring s ns :
  Ring (heap s) (root s) ns → mru_key s = (λ n : node, n.2.1) <$> last ns.
Proof.
  intros [Hr Hs Hnd]. unfold mru_key. rewrite Hr. simpl.
  destruct ns as [|z ns _] using rev_ind.
  - simpl. by rewrite decide_True.
  - rewrite last_addr_snoc, last_snoc. simpl.
    assert (z.1 ≠ root s) by nodup_solve.
    rewrite decide_False by done.
    apply seg_app in Hs as [_ [Hz _]]. by rewrite Hz.
Qed.

Lemma lru_key_Ring s ns :
  Ring (heap s) (root s) ns → lru_key s = (λ n : node, n.2.1) <$> head ns.
Proof.
  intros [Hr Hs Hnd]. unfold lru_key. rewrite Hr. simpl.
  destruct ns as [|z ns].
  - simpl. by rewrite decide_True.
  - rewrite hd_addr_cons. simpl. assert (z.1 ≠ root s) by nodup_solve.
    rewrite decide_False by done.
    destruct Hs as [Hz _]. by rewrite Hz.
Qed.

Lemma sim_ring_items N s a : sim N s a → ring_items s = m_items a.
Proof.
  intros (_ & _ & ns & HR & <-). unfold ring_items.
  by rewrite (ring_nodes_Ring _ _ (rep_ring _ _ HR)).
Qed.

Lemma sim_cache_len N s a : sim N s a → cache_len s = Z.of_nat (length (m_items a)).
Proof.
  intros (_ & _ & ns & HR & <-). unfold cache_len.
  by rewrite (Rep_size _ _ HR), length_fmap.
Qed.

Lemma sim_lookup N s a key :
  sim N s a → is_Some (cache s !! key) ↔ is_Some (assoc key (m_items a)).
Proof.
  intros (_ & _ & ns & HR & <-).
  rewrite <- !not_eq_None_Some, assoc_None.
  split; intros H Hk; apply H.
  - by eapply Rep_lookup_None.
  - destruct HR as [_ Hc _ _]. rewrite Hc in Hk.
    apply not_elem_of_list_to_map_2 in Hk. by rewrite entries_keys in Hk.
Qed.

(** The dict and the ordering agree in every state that satisfies [Rep]. *)
Lemma Rep_consistent s ns : Rep s ns → consistent s.
Proof.
  intros HR. unfold consistent.
  rewrite (ring_nodes_Ring _ _ (rep_ring _ _ HR)). split.
  - pose proof (ring_nodup _ _ _ (rep_ring _ _ HR)) as Hnd.
    by apply NoDup_cons in Hnd as [_ ?].
  - rewrite (rep_cache _ _ HR). apply map_to_list_to_map, HR.
Qed.

(** ** Facts about the list model *)

Lemma sim_NoDup N s a : sim N s a → NoDup (m_items a).*1.
Proof.
  intros (_ & _ & ns & HR & <-). rewrite <- entries_keys. apply HR.
Qed.

Lemma assoc_app_notin key l1 l2 : key ∉ l1.*1 → assoc key (l1 ++ l2) = assoc key l2.
Proof.
  induction l1 as [|i l1 IH]; simpl; [done|].
  rewrite not_elem_of_cons. intros [Hne Hk].
  rewrite decide_False by congruence. by apply IH.
Qed.

Lemma assoc_here key v l : assoc key ((key, v) :: l) = Some v.
Proof. simpl. by rewrite decide_True. Qed.

Lemma tail_keys_notin key (l : list (pyobj * pyobj)) : key ∉ l.*1 → key ∉ (tail l).*1.
Proof. destruct l; simpl; [done|]. rewrite not_elem_of_cons. tauto. Qed.

(** After [set key result], the list holds [result] for [key]. *)
Lemma assoc_m_set N key result a :
  NoDup (m_items a).*1 → assoc key (m_items (m_set N key result a)) = Some result.
Proof.
  intros Hnd. unfold m_set. destruct (assoc key (m_items a)) as [v|] eqn:Ha.
  - apply assoc_Some in Ha as (l1 & l2 & Hl & _). rewrite Hl in *.
    destruct (NoDup_keys_split _ _ _ _ Hnd) as [H1 H2]. simpl.
    rewrite replace_key_split by done.
    rewrite assoc_app_notin by done. apply assoc_here.
  - apply assoc_None in Ha. destruct (m_full a); simpl.
    + rewrite assoc_app_notin by (by apply tail_keys_notin). apply assoc_here.
    + rewrite assoc_app_notin by done. apply assoc_here.
Qed.

Lemma m_ok_init N : m_ok N m_init.
Proof. unfold m_ok. simpl. split; [done|]. lia. Qed.

Lemma m_ok_get N key a : NoDup (m_items a).*1 → m_ok N a → m_ok N (m_get key a).2.
Proof.
  intros Hnd (H1 & H2 & H3). unfold m_get.
  destruct (assoc key (m_items a)) as [v|] eqn:Ha; [|done].
  apply assoc_Some in Ha as (l1 & l2 & Hl & _). rewrite Hl in *.
  destruct (NoDup_keys_split _ _ _ _ Hnd) as [Hk1 Hk2].
  unfold m_ok. simpl. rewrite drop_key_split by done.
  rewrite ?length_app in *. simpl in *. rewrite ?length_app in *. simpl in *.
  split; [intros _; by destruct l1, l2|]. split; [intros ?%H2|]; lia.
Qed.

Lemma m_ok_set N key result a :
  NoDup (m_items a).*1 → m_ok N a → m_ok N (m_set N key result a).
Proof.
  intros Hnd (H1 & H2 & H3). unfold m_set.
  destruct (assoc key (m_items a)) as [v|] eqn:Ha.
  - unfold m_ok, replace_key. simpl. rewrite length_fmap.
    split; [|done]. intros Hf. specialize (H1 Hf). by destruct (m_items a).
  - destruct (m_full a) eqn:Hf; unfold m_ok; simpl; rewrite length_app; simpl.
    + specialize (H1 eq_refl). destruct (m_items a) as [|i l]; [done|]. simpl in *.
      split; [intros _; by destruct l|]. split; [done|]. lia.
    + specialize (H2 eq_refl).
      split; [intros _; by destruct (m_items a)|].
      split; [|lia]. intros Hb%bool_decide_eq_false. lia.
Qed.

Lemma m_ok_run N cs : no_delete cs → m_ok N (m_run N cs).
Proof.
  induction cs as [|c cs IH] using rev_ind; intros Hnd.
  - apply m_ok_init.
  - apply Forall_app in Hnd as [Hnd Hc].
    pose proof (sim_NoDup _ _ _ (sim_run N cs Hnd)) as Hkeys.
    unfold m_run in *. rewrite foldl_snoc.
    destruct c as [key|key result|key|]; simpl.
    + by apply m_ok_get; [|apply IH].
    + by apply m_ok_set; [|apply IH].
    + by apply IH.
    + apply m_ok_init.
Qed.

Lemma no_delete_sets kvs : no_delete (sets kvs).
Proof. unfold no_delete, sets. apply Forall_fmap, Forall_true. done. Qed.

(** Inserting new keys while there is room appends them in order. *)
Lemma m_sets_fresh N l0 hits misses kvs :
  kvs ≠ [] →
  NoDup (l0 ++ kvs).*1 →
  Z.of_nat (length l0 + length kvs) ≤ N →
  foldl (m_exec N) (Model l0 false hits misses) (sets kvs) =
    Model (l0 ++ kvs) (bool_decide (N ≤ Z.of_nat (length l0 + length kvs))) hits misses.
Proof.
  revert l0. induction kvs as [|[k v] kvs IH]; intros l0 Hne Hnd Hlen; [done|].
  simpl. unfold m_set at 1. simpl.
  assert (k ∉ l0.*1) as Hk.
  { revert Hnd. rewrite fmap_app, fmap_cons. simpl. rewrite NoDup_app_cons. tauto. }
  apply assoc_None in Hk. rewrite Hk.
  destruct kvs as [|kv kvs].
  - simpl. done.
  - rewrite bool_decide_eq_false_2 by (simpl in Hlen; lia).
    fold (sets (kv :: kvs)). rewrite IH; [| done | | ].
    + rewrite <- (assoc_L (++)). simpl. rewrite !length_app. simpl.
      do 2 f_equal. apply bool_decide_ext. lia.
    + by rewrite <- (assoc_L (++)).
    + rewrite length_app. simpl in *. lia.
Qed.

(** ** The scenarios of the specification, run on the embedding *)

(** Capacity 2: [set(a, 1); set(b, 2); get(a); set(c, 3); get(b); get(c)]
    and [cache_info()]. *)
Example scenario_capacity_two :
  let s := run (init 2) [CSet (PyStr "a") (PyInt 1); CSet (PyStr "b") (PyInt 2)] in
  let r1 := get (PyStr "a") s in
  let s := exec r1.2 (CSet (PyStr "c") (PyInt 3)) in
  let r2 := get (PyStr "b") s in
  let r3 := get (PyStr "c") r2.2 in
  r1.1 = Return (PyInt 1) ∧
  r2.1 = Return SENTINEL ∧
  r3.1 = Return (PyInt 3) ∧
  cache_info r3.2 = (2, 1, 2, 2).
Proof. vm_compute. done. Qed.

(** [clear()] empties the engine and resets both counters. *)
Example scenario_clear :
  let s := run (init 2)
             [CSet (PyStr "a") (PyInt 1); CGet (PyStr "a"); CGet (PyStr "b"); CClear] in
  cache_info s = (0, 0, 2, 0) ∧
  (get (PyStr "a") s).1 = Return SENTINEL ∧
  ring_items s = [].
Proof. vm_compute. done. Qed.

(** [set(a, 1); delete(a); get(a); set(a, 2); get(a)]: the second [set]
    adds a second link for [a]. *)
Example scenario_delete_then_set :
  let s := run (init 2) [CSet (PyStr "a") (PyInt 1); CDelete (PyStr "a")] in
  let r1 := get (PyStr "a") s in
  let s := exec r1.2 (CSet (PyStr "a") (PyInt 2)) in
  let r2 := get (PyStr "a") s in
  r1.1 = Return SENTINEL ∧
  r2.1 = Return (PyInt 2) ∧
  cache_info r2.2 = (1, 1, 2, 1) ∧
  ring_items r2.2 = [(PyStr "a", PyInt 1); (PyStr "a", PyInt 2)].
Proof. vm_compute. done. Qed.

(** ** The claims about the LRU engine *)

(** C7. In every state reached from a new engine by any calls, a [get] on
    a key that the dict does not hold returns [SENTINEL], adds one to the
    misses and keeps the hits; a [get] on a key that the dict holds returns
    the result passed by the latest [set] on that key, adds one to the hits
    and keeps the misses.  [SENTINEL] is an object of its own: it is not
    [None], not an integer, not a string and not any other object. *)
Theorem get_hit_miss_accounting (N : Z) (cs : list call) (key : pyobj) :
  (let s := run (init N) cs in
   match cache s !! key with
   | None =>
       (get key s).1 = Return SENTINEL ∧
       MISSES (stat (get key s).2) = MISSES (stat s) + 1 ∧
       HITS (stat (get key s).2) = HITS (stat s)
   | Some _ =>
       ∃ v, last_set cs key = Some v ∧
         (get key s).1 = Return v ∧
         HITS (stat (get key s).2) = HITS (stat s) + 1 ∧
         MISSES (stat (get key s).2) = MISSES (stat s)
   end) ∧
  SENTINEL ≠ PyNone ∧
  (∀ z, SENTINEL ≠ PyInt z) ∧
  (∀ str, SENTINEL ≠ PyStr str) ∧
  (∀ id, id ≠ 0%nat → SENTINEL ≠ PyObject id).
Proof.
  split; [|unfold SENTINEL; split_and!; intros; congruence].
  simpl. destruct (Sound_run N cs) as [ns [HR Hc Hf]].
  destruct (cache (run (init N) cs) !! key) as [a'|] eqn:Hk.
  - destruct (Hc _ _ Hk) as (v & Hin & Hm).
    apply list_elem_of_split in Hin as (l1 & l2 & ->).
    destruct (get_hit key _ l1 (a', (key, v)) l2 HR Hk) as (h' & -> & _).
    exists v. done.
  - by rewrite (get_miss _ _ Hk).
Qed.

(** C1, as amended.  In every state reached from a new engine by any calls,
    for a key that the dict holds: [get] returns and moves the link of the
    key just before the root, the most recently used position, the other
    links keeping their order; [set] returns, overwrites the result held
    by the link of the key and leaves every link, this one included, at its
    place in the ordering. *)
Theorem get_promotes_set_overwrites_in_place
    (N : Z) (cs : list call) (key result : pyobj) (a : addr) :
  cache (run (init N) cs) !! key = Some a →
  let s := run (init N) cs in
  returns s (CGet key) = true ∧
  returns s (CSet key result) = true ∧
  mru_key (exec s (CGet key)) = Some key ∧
  mru_key (exec s (CSet key result)) = mru_key s ∧
  ∃ l1 v l2,
    ring_nodes s = l1 ++ (a, (key, v)) :: l2 ∧
    ring_nodes (exec s (CGet key)) = l1 ++ l2 ++ [(a, (key, v))] ∧
    ring_nodes (exec s (CSet key result)) = l1 ++ (a, (key, result)) :: l2.
Proof.
  intros Hk. simpl. destruct (Sound_run N cs) as [ns [HR Hc Hf]].
  destruct (Hc _ _ Hk) as (v & Hin & Hm).
  apply list_elem_of_split in Hin as (l1 & l2 & ->).
  destruct (get_hit key _ l1 (a, (key, v)) l2 HR Hk) as (h1 & Hget & HR1).
  destruct (set_existing key result _ l1 (a, (key, v)) l2 HR Hk) as (h2 & Hset & HR2).
  rewrite Hget, Hset. simpl. split_and!; [done|done| | |].
  - rewrite (mru_key_Ring _ (l1 ++ l2 ++ [(a, (key, v))])) by done.
    by rewrite !(assoc_L (++)), last_snoc.
  - rewrite (mru_key_Ring _ (l1 ++ (a, (key, result)) :: l2)) by done.
    rewrite (mru_key_Ring _ (l1 ++ (a, (key, v)) :: l2)) by done.
    rewrite !last_app. by destruct l2.
  - exists l1, v, l2. split_and!; by apply ring_nodes_Ring.
Qed.

Lemma get_promotes_set_overwrites_in_place_witness :
  let cs := [CSet (PyStr "a") (PyInt 1); CSet (PyStr "b") (PyInt 2)] in
  cache (run (init 2) cs) !! PyStr "a" = Some 1%nat ∧
  mru_key (exec (run (init 2) cs) (CGet (PyStr "a"))) = Some (PyStr "a").
Proof.
  split; [vm_compute; reflexivity|].
  apply (get_promotes_set_overwrites_in_place 2
           [CSet (PyStr "a") (PyInt 1); CSet (PyStr "b") (PyInt 2)]
           (PyStr "a") (PyInt 3) 1%nat).
  vm_compute. reflexivity.
Defined.

(** C1 as stated fails: in an engine of capacity 2 holding [a] then [b],
    [set(a, 3)] returns and leaves [b] at the most recently used position;
    the next insertion then evicts [a]. *)
Lemma set_on_present_key_does_not_promote :
  let s := run (init 2) [CSet (PyStr "a") (PyInt 1); CSet (PyStr "b") (PyInt 2)] in
  let s' := exec s (CSet (PyStr "a") (PyInt 3)) in
  cache s !! PyStr "a" = Some 1%nat ∧
  returns s (CSet (PyStr "a") (PyInt 3)) = true ∧
  mru_key s' = Some (PyStr "b") ∧
  mru_key s' ≠ Some (PyStr "a") ∧
  ring_items s' = [(PyStr "a", PyInt 3); (PyStr "b", PyInt 2)] ∧
  ring_items (exec s' (CSet (PyStr "c") (PyInt 4))) =
    [(PyStr "b", PyInt 2); (PyStr "c", PyInt 4)].
Proof. vm_compute. split_and!; try reflexivity. discriminate. Qed.

(** C2, as amended.  In every state reached from a new engine by any calls,
    [delete(key)] on a key that the dict holds returns, removes the key from
    the dict, so that a [get(key)] that follows misses, and keeps both
    counters; on a key that the dict does not hold it raises [KeyError] and
    leaves the engine as it was. *)
Theorem delete_removes_or_raises (N : Z) (cs : list call) (key : pyobj) :
  let s := run (init N) cs in
  match cache s !! key with
  | Some _ =>
      (delete key s).1 = Return tt ∧
      cache (delete key s).2 = base.delete key (cache s) ∧
      cache (delete key s).2 !! key = None ∧
      (get key (delete key s).2).1 = Return SENTINEL ∧
      HITS (stat (delete key s).2) = HITS (stat s) ∧
      MISSES (stat (delete key s).2) = MISSES (stat s)
  | None => delete key s = (Raise KeyError, s)
  end.
Proof.
  simpl. destruct (Sound_run N cs) as [ns Hs].
  destruct (Sound_root _ _ _ Hs) as [l Hl].
  rewrite (delete_spec key _ l Hl).
  destruct (cache (run (init N) cs) !! key); [|done].
  simpl. split_and!; try done.
  - apply lookup_delete_eq.
  - rewrite get_miss; [done|]. apply lookup_delete_eq.
Qed.

(** C2 as stated fails: [delete] of a key that was never set raises
    [KeyError]. *)
Lemma delete_absent_key_raises :
  cache (init 2) !! PyStr "a" = None ∧
  delete (PyStr "a") (init 2) = (Raise KeyError, init 2) ∧
  returns (init 2) (CDelete (PyStr "a")) = false.
Proof. vm_compute. done. Qed.

(** C3 fails on the code.  [delete] takes the key out of the dict and
    leaves its link in the ring: after [set(a, 1); set(b, 2); delete(a)] on
    an engine of capacity 2 the ring holds the links of [a] and [b] while
    the dict holds [b] only.  Two insertions later the engine evicts the
    link of [a], and [del cache[oldkey]] raises [KeyError]. *)
Theorem delete_leaves_link_in_ring :
  let s := run (init 2)
             [CSet (PyStr "a") (PyInt 1); CSet (PyStr "b") (PyInt 2);
              CDelete (PyStr "a")] in
  returns (run (init 2) [CSet (PyStr "a") (PyInt 1); CSet (PyStr "b") (PyInt 2)])
    (CDelete (PyStr "a")) = true ∧
  ring_items s = [(PyStr "a", PyInt 1); (PyStr "b", PyInt 2)] ∧
  map_to_list (cache s) = [(PyStr "b", 2%nat)] ∧
  ¬ consistent s ∧
  returns s (CSet (PyStr "c") (PyInt 3)) = true ∧
  (set (PyStr "d") (PyInt 4) (exec s (CSet (PyStr "c") (PyInt 3)))).1 = Raise KeyError.
Proof.
  simpl. split_and!; try (vm_compute; reflexivity).
  intros [_ Hp]. apply Permutation_length in Hp. vm_compute in Hp. discriminate.
Qed.

(** Without [delete] the dict and the ring agree in every reachable state,
    and every call returns. *)
Lemma consistent_without_delete N cs c :
  no_delete (cs ++ [c]) →
  consistent (run (init N) cs) ∧ returns (run (init N) cs) c = true.
Proof.
  intros [Hcs Hc]%Forall_app. apply Forall_cons_1 in Hc as [Hc _].
  pose proof (sim_run N cs Hcs) as Hsim. split.
  - destruct Hsim as (_ & _ & ns & HR & _). by eapply Rep_consistent.
  - by destruct (sim_exec N _ _ c Hc Hsim).
Qed.

Lemma delete_free_no_delete cs : delete_free cs = true → no_delete cs.
Proof.
  unfold delete_free, no_delete. rewrite forallb_forall, Forall_forall.
  intros H c Hc. apply list_elem_of_In in Hc. apply H in Hc. by destruct (is_delete c).
Qed.

(** C4, as amended.  An engine built with [maxsize = 0] keeps one entry:
    in every state reached without [delete], [set(key, result)] returns,
    the [get(key)] that follows returns [result], not [SENTINEL], and the
    engine then holds exactly one entry. *)
Theorem maxsize_zero_keeps_one_entry (cs : list call) (key result : pyobj) :
  delete_free cs = true →
  let s := run (init 0) cs in
  returns s (CSet key result) = true ∧
  (get key (exec s (CSet key result))).1 = Return result ∧
  cache_len (exec s (CSet key result)) = 1.
Proof.
  intros Hcs%delete_free_no_delete. simpl.
  pose proof (sim_run 0 cs Hcs) as Hsim.
  pose proof (m_ok_run 0 cs Hcs) as Hok.
  pose proof (sim_NoDup _ _ _ Hsim) as Hnd.
  destruct (sim_set 0 _ _ key result Hsim) as [Hret Hsim'].
  rewrite Hret. split; [done|].
  destruct (sim_get 0 _ _ key Hsim') as [-> _].
  pose proof (assoc_m_set 0 key result _ Hnd) as Ha.
  unfold m_get. rewrite Ha. simpl. split; [done|].
  rewrite (sim_cache_len _ _ _ Hsim').
  destruct (m_ok_set 0 key result _ Hnd Hok) as (_ & _ & Hle).
  destruct (m_items (m_set 0 key result (m_run 0 cs))); [done|].
  simpl in *. lia.
Qed.

Lemma maxsize_zero_keeps_one_entry_witness :
  delete_free [CSet (PyStr "b") (PyInt 2); CGet (PyStr "b")] = true ∧
  cache_len
    (exec (run (init 0) [CSet (PyStr "b") (PyInt 2); CGet (PyStr "b")])
       (CSet (PyStr "a") (PyInt 1))) = 1.
Proof.
  split; [reflexivity|].
  apply (maxsize_zero_keeps_one_entry
           [CSet (PyStr "b") (PyInt 2); CGet (PyStr "b")] (PyStr "a") (PyInt 1)).
  reflexivity.
Defined.

(** C4 as stated fails: on a new engine with [maxsize = 0], [set(a, 1)]
    keeps its entry; the [get(a)] that follows returns [1] and the engine
    reports one entry. *)
Lemma maxsize_zero_set_is_kept :
  let s := exec (init 0) (CSet (PyStr "a") (PyInt 1)) in
  (get (PyStr "a") s).1 = Return (PyInt 1) ∧
  (get (PyStr "a") s).1 ≠ Return SENTINEL ∧
  cache_info s = (0, 0, 0, 1).
Proof. vm_compute. split_and!; try reflexivity. discriminate. Qed.

(** C5.  For a positive [N] and any calls [set(k, v)] on an engine built
    with [maxsize = N], each call returns and the number of entries that
    [cache_info] reports after each call is at most [N]. *)
Theorem capacity_invariant (N : Z) (kvs : list (pyobj * pyobj)) (n : nat) :
  0 < N →
  let s := run (init N) (take n (sets kvs)) in
  (cache_info s).2 ≤ N ∧
  (cache_info s).1.2 = N ∧
  ∀ kv, returns s (CSet kv.1 kv.2) = true.
Proof.
  intros HN. simpl.
  assert (no_delete (take n (sets kvs))) as Hnd.
  { apply Forall_take, no_delete_sets. }
  pose proof (sim_run N _ Hnd) as Hsim.
  destruct (m_ok_run N _ Hnd) as (_ & _ & Hle).
  rewrite (sim_cache_len _ _ _ Hsim). split; [lia|]. split; [apply Hsim|].
  intros kv. by destruct (sim_set N _ _ kv.1 kv.2 Hsim) as [-> _].
Qed.

Lemma capacity_invariant_witness :
  0 < 2 ∧
  (cache_info
     (run (init 2)
        (take 3 (sets [(PyStr "a", PyInt 1); (PyStr "b", PyInt 2);
                       (PyStr "c", PyInt 3); (PyStr "a", PyInt 4)])))).2 ≤ 2.
Proof.
  split; [lia|].
  apply (capacity_invariant 2
           [(PyStr "a", PyInt 1); (PyStr "b", PyInt 2);
            (PyStr "c", PyInt 3); (PyStr "a", PyInt 4)] 3).
  lia.
Defined.

Lemma sim_lru_key N s a : sim N s a → lru_key s = fst <$> head (m_items a).
Proof.
  intros (_ & _ & ns & HR & <-). rewrite (lru_key_Ring _ _ (rep_ring _ _ HR)).
  by destruct ns.
Qed.

Lemma sim_lookup_None N s a key :
  sim N s a → key ∉ (m_items a).*1 → cache s !! key = None.
Proof.
  intros Hsim Hk. apply eq_None_not_Some. rewrite (sim_lookup _ _ _ key Hsim).
  apply assoc_None in Hk. rewrite Hk. by intros [? ?].
Qed.

Lemma sim_lookup_Some N s a key :
  sim N s a → key ∈ (m_items a).*1 → is_Some (cache s !! key).
Proof.
  intros Hsim Hk. rewrite (sim_lookup _ _ _ key Hsim).
  apply not_eq_None_Some. rewrite assoc_None. tauto.
Qed.

(** The list model after [N] insertions of distinct keys, a [get] of the
    first key and the insertion of one more key. *)
Lemma m_run_recency k1 v1 k2 v2 rest k' v' :
  let kvs := (k1, v1) :: (k2, v2) :: rest in
  let N := Z.of_nat (length kvs) in
  NoDup (kvs.*1 ++ [k']) →
  m_run N (sets kvs) = Model kvs true 0 0 ∧
  m_run N (sets kvs ++ [CGet k1]) = Model ((k2, v2) :: rest ++ [(k1, v1)]) true 1 0 ∧
  m_run N (sets kvs ++ [CGet k1; CSet k' v']) =
    Model (rest ++ [(k1, v1); (k', v')]) true 1 0.
Proof.
  intros kvs N Hnd.
  assert (NoDup kvs.*1 ∧ k' ∉ kvs.*1) as [Hkvs Hk'].
  { revert Hnd. rewrite NoDup_app. intros (? & Hd & _). split; [done|].
    intros Hin. apply (Hd _ Hin). by apply list_elem_of_singleton. }
  assert (m_run N (sets kvs) = Model kvs true 0 0) as H1.
  { unfold m_run, m_init. rewrite (m_sets_fresh N [] 0 0 kvs); [|done|done|unfold N; simpl; lia].
    simpl. f_equal. apply bool_decide_eq_true_2. unfold N. simpl. lia. }
  assert (k1 ∉ ((k2, v2) :: rest).*1) as Hk1.
  { by apply NoDup_cons in Hkvs as [? _]. }
  assert (m_run N (sets kvs ++ [CGet k1]) =
          Model ((k2, v2) :: rest ++ [(k1, v1)]) true 1 0) as H2.
  { unfold m_run in *. rewrite foldl_snoc, H1. simpl. unfold m_get. simpl.
    rewrite decide_True by done. simpl.
    pose proof (drop_key_split k1 v1 [] ((k2, v2) :: rest)) as Hd.
    simpl in Hd. fold kvs in Hd. rewrite Hd; [done| |done].
    apply not_elem_of_nil. }
  split; [done|]. split; [done|].
  unfold m_run in *.
  change [CGet k1; CSet k' v'] with ([CGet k1] ++ [CSet k' v']).
  rewrite (assoc_L (++)), foldl_snoc, H2.
  assert (assoc k' ((k2, v2) :: rest ++ [(k1, v1)]) = None) as Ha.
  { apply assoc_None. revert Hk'. subst kvs. simpl.
    rewrite fmap_app. simpl. clear. set_solver. }
  cbn [m_exec]. unfold m_set. cbn [m_items m_full m_hits m_misses]. rewrite Ha.
  simpl. by rewrite <- (assoc_L (++)).
Qed.

(** C6.  Let [(k1, v1), (k2, v2), rest] be [N] pairs with distinct keys
    (so [N ≥ 2]) and [k'] one more key.  On a new engine with
    [maxsize = N], after [set] of the [N] pairs in order and [get(k1)], the
    least recently used key is [k2]; [set(k', v')] then returns and evicts
    [k2]: the engine holds the rest, then [k1], then [k'], a [get(k2)]
    returns [SENTINEL] and the dict holds [k1], the keys of the rest and
    [k'], but not [k2]. *)
Theorem recency_order (k1 v1 k2 v2 : pyobj) (rest : list (pyobj * pyobj))
    (k' v' : pyobj) :
  let kvs := (k1, v1) :: (k2, v2) :: rest in
  let N := Z.of_nat (length kvs) in
  NoDup (kvs.*1 ++ [k']) →
  let before := run (init N) (sets kvs ++ [CGet k1]) in
  let s := exec before (CSet k' v') in
  (get k1 (run (init N) (sets kvs))).1 = Return v1 ∧
  lru_key before = Some k2 ∧
  returns before (CSet k' v') = true ∧
  ring_items s = rest ++ [(k1, v1); (k', v')] ∧
  (get k2 s).1 = Return SENTINEL ∧
  cache s !! k2 = None ∧
  (∀ k, k ∈ k1 :: rest.*1 ++ [k'] → is_Some (cache s !! k)).
Proof.
  intros kvs N Hnd before s.
  destruct (m_run_recency k1 v1 k2 v2 rest k' v' Hnd) as (H1 & H2 & H3).
  fold kvs N in H1, H2, H3.
  assert (no_delete (sets kvs)) as Hd1 by apply no_delete_sets.
  assert (no_delete (sets kvs ++ [CGet k1])) as Hd2.
  { apply Forall_app. split; [done|]. by apply Forall_singleton. }
  assert (no_delete (sets kvs ++ [CGet k1; CSet k' v'])) as Hd3.
  { apply Forall_app. split; [done|]. by repeat constructor. }
  pose proof (sim_run N _ Hd1) as S1. rewrite H1 in S1.
  pose proof (sim_run N _ Hd2) as S2. rewrite H2 in S2. fold before in S2.
  pose proof (sim_run N _ Hd3) as S3. rewrite H3 in S3.
  assert (run (init N) (sets kvs ++ [CGet k1; CSet k' v']) = s) as Hs.
  { subst s before. unfold run.
    change [CGet k1; CSet k' v'] with ([CGet k1] ++ [CSet k' v']).
    by rewrite (assoc_L (++)), foldl_snoc. }
  rewrite Hs in S3.
  assert (k2 ∉ (rest ++ [(k1, v1); (k', v')]).*1) as Hk2.
  { revert Hnd. subst kvs. simpl. rewrite fmap_app. simpl.
    rewrite !NoDup_cons, NoDup_app. clear. set_solver. }
  split_and!.
  - destruct (sim_get N _ _ k1 S1) as [-> _]. unfold m_get. simpl.
    by rewrite decide_True.
  - by rewrite (sim_lru_key _ _ _ S2).
  - unfold returns. by destruct (sim_set N _ _ k' v' S2) as [-> _].
  - by rewrite (sim_ring_items _ _ _ S3).
  - destruct (sim_get N _ _ k2 S3) as [-> _]. unfold m_get. simpl.
    apply assoc_None in Hk2. by rewrite Hk2.
  - by eapply sim_lookup_None.
  - intros k Hk. eapply sim_lookup_Some; [done|]. simpl.
    revert Hk. rewrite fmap_app. simpl. clear. set_solver.
Qed.

Lemma recency_order_witness :
  NoDup ([PyStr "a"; PyStr "b"; PyStr "c"] ++ [PyStr "d"]) ∧
  ring_items
    (exec
       (run (init 3)
          (sets [(PyStr "a", PyInt 1); (PyStr "b", PyInt 2); (PyStr "c", PyInt 3)]
             ++ [CGet (PyStr "a")]))
       (CSet (PyStr "d") (PyInt 4))) =
    [(PyStr "c", PyInt 3); (PyStr "a", PyInt 1); (PyStr "d", PyInt 4)].
Proof.
  assert (NoDup ([PyStr "a"; PyStr "b"; PyStr "c"] ++ [PyStr "d"])) as Hnd.
  { apply (bool_decide_unpack _). vm_compute. exact I. }
  split; [exact Hnd|].
  apply (recency_order (PyStr "a") (PyInt 1) (PyStr "b") (PyInt 2)
           [(PyStr "c", PyInt 3)] (PyStr "d") (PyInt 4)).
  exact Hnd.
Defined.

(** ** Further properties of the engine *)

(** *** What each call leaves unchanged *)

Lemma get_frame m s ns key :
  Sound m s ns →
  is_returned (get key s).1 = true ∧
  cache (get key s).2 = cache s ∧
  maxsize (get key s).2 = maxsize s ∧
  FULL (stat (get key s).2) = FULL (stat s) ∧
  HITS (stat (get key s).2) + MISSES (stat (get key s).2) =
    HITS (stat s) + MISSES (stat s) + 1.
Proof.
  intros [HR Hc Hf].
  destruct (cache s !! key) as [a'|] eqn:Hk.
  - destruct (Hc _ _ Hk) as (v & Hin & Hm).
    apply list_elem_of_split in Hin as (l1 & l2 & ->).
    destruct (get_hit key s l1 (a', (key, v)) l2 HR Hk) as (h' & -> & _).
    simpl. split_and!; try done. lia.
  - rewrite (get_miss _ _ Hk). simpl. split_and!; try done. lia.
Qed.

Lemma set_frame m s ns key result :
  Sound m s ns →
  ((set key result s).1 = Return tt ∨ (set key result s).1 = Raise KeyError) ∧
  maxsize (set key result s).2 = maxsize s ∧
  HITS (stat (set key result s).2) = HITS (stat s) ∧
  MISSES (stat (set key result s).2) = MISSES (stat s).
Proof.
  intros [HR Hc Hf].
  destruct (cache s !! key) as [a'|] eqn:Hk.
  - destruct (Hc _ _ Hk) as (v & Hin & Hm).
    apply list_elem_of_split in Hin as (l1 & l2 & ->).
    destruct (set_existing key result s l1 (a', (key, v)) l2 HR Hk) as (h' & -> & _).
    simpl. split_and!; try done. by left.
  - destruct (FULL (stat s)) eqn:Hfull.
    + destruct ns as [|y rest]; [by destruct Hf|].
      destruct (set_full key result s y rest HR Hk Hfull) as (h' & _ & ->).
      destruct (cache s !! y.2.1); simpl; split_and!; try done; [by left|by right].
    + destruct (set_insert key result s ns HR Hk Hfull) as (h' & a' & _ & -> & _).
      simpl. split_and!; try done. by left.
Qed.

Lemma delete_frame key s :
  heap (delete key s).2 = heap s ∧
  root (delete key s).2 = root s ∧
  maxsize (delete key s).2 = maxsize s ∧
  HITS (stat (delete key s).2) = HITS (stat s) ∧
  MISSES (stat (delete key s).2) = MISSES (stat s) ∧
  ((delete key s).1 = Return tt ∨ (delete key s).1 = Raise KeyError ∨
   (delete key s).1 = Raise BadReference).
Proof.
  unfold_M. destruct (heap s !! root s); simpl; [|by split_and!; auto].
  destruct (cache s !! key); simpl; split_and!; auto.
Qed.

Lemma clear_frame m s ns :
  Sound m s ns →
  (clear s).1 = Return tt ∧
  maxsize (clear s).2 = maxsize s ∧
  cache (clear s).2 = ∅ ∧
  stat (clear s).2 = Stat false 0 0 ∧
  Ring (heap (clear s).2) (root (clear s).2) [].
Proof.
  intros Hs. destruct (Sound_root _ _ _ Hs) as [l Hl].
  by destruct (clear_spec s l Hl) as [-> HR].
Qed.

(** [maxsize] is fixed when the engine is built. *)
Lemma maxsize_run N cs : maxsize (run (init N) cs) = N.
Proof.
  induction cs as [|c cs IH] using rev_ind; [done|].
  destruct (Sound_run N cs) as [ns Hs].
  unfold run in *. rewrite foldl_snoc.
  destruct c as [key|key result|key|]; simpl.
  - destruct (get_frame _ _ _ key Hs) as (_ & _ & -> & _). done.
  - destruct (set_frame _ _ _ key result Hs) as (_ & -> & _). done.
  - destruct (delete_frame key (foldl exec (init N) cs)) as (_ & _ & -> & _). done.
  - destruct (clear_frame _ _ _ Hs) as (_ & -> & _). done.
Qed.

(** The store of links is adequate: in every state reached from a new
    engine by any calls, no call follows a reference out of the store.
    [get] and [clear] return, and [set] and [delete] return or raise the
    [KeyError] of [del cache[key]]. *)
Lemma calls_stay_in_the_store (N : Z) (cs : list call) (c : call) :
  let s := run (init N) cs in
  match c with
  | CGet key => ∃ r, (get key s).1 = Return r
  | CClear => (clear s).1 = Return tt
  | CSet key result =>
      (set key result s).1 = Return tt ∨ (set key result s).1 = Raise KeyError
  | CDelete key =>
      (delete key s).1 = Return tt ∨ (delete key s).1 = Raise KeyError
  end.
Proof.
  simpl. destruct (Sound_run N cs) as [ns Hs].
  destruct c as [key|key result|key|].
  - destruct (get_frame _ _ _ key Hs) as (Hr & _).
    destruct (get key (run (init N) cs)).1 as [r|]; [by exists r|done].
  - by destruct (set_frame _ _ _ key result Hs) as (? & _).
  - destruct (Sound_root _ _ _ Hs) as [l Hl]. rewrite (delete_spec key _ l Hl).
    destruct (cache (run (init N) cs) !! key); [by left|by right].
  - by destruct (clear_frame _ _ _ Hs) as (? & _).
Qed.

(** X2.  In every state reached from a new engine by any calls,
    [set(key, result)] raises [KeyError] exactly when the dict does not
    hold [key], the engine is full and the dict does not hold the key of
    the link at the least recently used position.  The dict and the
    counters are then as before, but the links have already been updated:
    the oldest link has left the ordering and [key] holds the newest one. *)
Theorem set_raises_on_stale_oldest_link (N : Z) (cs : list call) (key result : pyobj) :
  let s := run (init N) cs in
  ((set key result s).1 = Raise KeyError ↔
     cache s !! key = None ∧ FULL (stat s) = true ∧
     ∃ old, lru_key s = Some old ∧ cache s !! old = None) ∧
  ((set key result s).1 = Raise KeyError →
     cache (set key result s).2 = cache s ∧
     stat (set key result s).2 = stat s ∧
     ring_items (set key result s).2 = tail (ring_items s) ++ [(key, result)] ∧
     mru_key (set key result s).2 = Some key).
Proof.
  simpl. destruct (Sound_run N cs) as [ns [HR Hc Hf]].
  set (s := run (init N) cs) in *.
  destruct (cache s !! key) as [a'|] eqn:Hk.
  - destruct (Hc _ _ Hk) as (v & Hin & Hm).
    apply list_elem_of_split in Hin as (l1 & l2 & ->).
    destruct (set_existing key result s l1 (a', (key, v)) l2 HR Hk) as (h' & -> & _).
    simpl. split; [|done]. split; [done|]. by intros [? _].
  - destruct (FULL (stat s)) eqn:Hfull.
    + destruct ns as [|y rest]; [by destruct Hf|].
      destruct (set_full key result s y rest HR Hk Hfull) as (h' & HR' & ->).
      pose proof (lru_key_Ring _ _ HR) as Hlru. simpl in Hlru.
      destruct (cache s !! y.2.1) eqn:Hy; simpl.
      * split; [|done]. split; [done|].
        intros (_ & _ & old & Hold & Hnone). congruence.
      * split; [split; [|done]; intros _; split_and!; try done; by exists y.2.1|].
        intros _. split_and!; try done.
        -- unfold ring_items. rewrite (ring_nodes_Ring _ _ HR).
           rewrite (ring_nodes_Ring (Engine _ _ h' y.1 _) _ HR').
           by rewrite fmap_app.
        -- rewrite (mru_key_Ring (Engine _ _ h' y.1 _) _ HR').
           by rewrite last_snoc.
    + destruct (set_insert key result s ns HR Hk Hfull) as (h' & a' & _ & -> & _).
      simpl. split; [|done]. split; [done|]. by intros (_ & ? & _).
Qed.

(** *** Counters and results *)

Lemma get_counters m s ns key :
  Sound m s ns →
  HITS (stat s) ≤ HITS (stat (get key s).2) ∧
  MISSES (stat s) ≤ MISSES (stat (get key s).2).
Proof.
  intros [HR Hc Hf].
  destruct (cache s !! key) as [a'|] eqn:Hk.
  - destruct (Hc _ _ Hk) as (v & Hin & Hm).
    apply list_elem_of_split in Hin as (l1 & l2 & ->).
    destruct (get_hit key s l1 (a', (key, v)) l2 HR Hk) as (h' & -> & _).
    simpl. lia.
  - rewrite (get_miss _ _ Hk). simpl. lia.
Qed.

(** X3.  After any calls on an engine built with [maxsize = N], the two
    counters are not negative, their sum is the number of [get] calls since
    the latest [clear] ([set] and [delete] count for nothing, also when
    they raise), and [cache_info] still reports [N]. *)
Theorem counters_count_gets (N : Z) (cs : list call) :
  let s := run (init N) cs in
  0 ≤ HITS (stat s) ∧
  0 ≤ MISSES (stat s) ∧
  HITS (stat s) + MISSES (stat s) = gets_since_clear cs ∧
  (cache_info s).1 = (HITS (stat s), MISSES (stat s), N).
Proof.
  simpl.
  assert (0 ≤ HITS (stat (run (init N) cs)) ∧ 0 ≤ MISSES (stat (run (init N) cs)) ∧
          HITS (stat (run (init N) cs)) + MISSES (stat (run (init N) cs))
            = gets_since_clear cs) as (H1 & H2 & H3).
  { induction cs as [|c cs IH] using rev_ind; [done|].
    destruct (Sound_run N cs) as [ns Hs].
    unfold run, gets_since_clear in *. rewrite !foldl_snoc.
    set (s := foldl exec (init N) cs) in *.
    destruct c as [key|key result|key|]; simpl.
    - destruct (get_frame _ _ _ key Hs) as (_ & _ & _ & _ & Hsum).
      destruct (get_counters _ _ _ key Hs). lia.
    - destruct (set_frame _ _ _ key result Hs) as (_ & _ & -> & ->). done.
    - destruct (delete_frame key s) as (_ & _ & _ & -> & -> & _). done.
    - destruct (clear_frame _ _ _ Hs) as (_ & _ & _ & -> & _). done. }
  split_and!; try done. unfold cache_info. by rewrite maxsize_run.
Qed.

(** What a [get] returns in a sound state. *)
Lemma Sound_get_result m s ns key :
  Sound m s ns →
  (get key s).1 =
    Return (match cache s !! key with
            | Some _ => default SENTINEL (m key)
            | None => SENTINEL
            end).
Proof.
  intros [HR Hc Hf].
  destruct (cache s !! key) as [a'|] eqn:Hk.
  - destruct (Hc _ _ Hk) as (v & Hin & Hm).
    apply list_elem_of_split in Hin as (l1 & l2 & ->).
    destruct (get_hit key s l1 (a', (key, v)) l2 HR Hk) as (h' & -> & _).
    by rewrite Hm.
  - by rewrite (get_miss _ _ Hk).
Qed.


Lemma set_returns_holds m s ns key result :
  Sound m s ns →
  (set key result s).1 = Return tt →
  is_Some (cache (set key result s).2 !! key).
Proof.
  intros [HR Hc Hf].
  destruct (cache s !! key) as [a'|] eqn:Hk.
  - destruct (Hc _ _ Hk) as (v & Hin & Hm).
    apply list_elem_of_split in Hin as (l1 & l2 & ->).
    destruct (set_existing key result s l1 (a', (key, v)) l2 HR Hk) as (h' & -> & _).
    simpl. intros _. by rewrite Hk.
  - destruct (FULL (stat s)) eqn:Hfull.
    + destruct ns as [|y rest]; [by destruct Hf|].
      destruct (set_full key result s y rest HR Hk Hfull) as (h' & _ & ->).
      destruct (cache s !! y.2.1); simpl; [|done].
      intros _. rewrite lookup_insert_eq. eauto.
    + destruct (set_insert key result s ns HR Hk Hfull) as (h' & a' & _ & -> & _).
      simpl. intros _. rewrite lookup_insert_eq. eauto.
Qed.

(** X5.  In every state reached from a new engine by any calls, when
    [set(key, result)] returns, the [get(key)] that follows returns
    [result] and the dict holds [key]. *)
Theorem set_then_get (N : Z) (cs : list call) (key result : pyobj) :
  let s := run (init N) cs in
  (set key result s).1 = Return tt →
  (get key (set key result s).2).1 = Return result ∧
  is_Some (cache (set key result s).2 !! key) ∧
  1 ≤ cache_len (set key result s).2.
Proof.
  simpl. intros Hret. destruct (Sound_run N cs) as [ns Hs].
  destruct (Sound_set _ _ _ key result Hs) as [ns' Hs'].
  pose proof (set_returns_holds _ _ _ key result Hs Hret) as [a' Ha].
  rewrite (Sound_get_result _ _ _ key Hs'), Ha. unfold record.
  rewrite decide_True by done. split_and!; [done|eauto|].
  unfold cache_len.
  destruct (decide (size (cache (set key result (run (init N) cs)).2) = 0%nat)) as [H0|H0];
    [|lia].
  apply map_size_empty_inv in H0. rewrite H0, lookup_empty in Ha. done.
Qed.

Lemma set_then_get_witness :
  (set (PyStr "c") (PyInt 3)
     (run (init 2) [CSet (PyStr "a") (PyInt 1); CSet (PyStr "b") (PyInt 2)])).1
    = Return tt ∧
  (get (PyStr "c")
     (set (PyStr "c") (PyInt 3)
        (run (init 2) [CSet (PyStr "a") (PyInt 1); CSet (PyStr "b") (PyInt 2)])).2).1
    = Return (PyInt 3).
Proof.
  split; [vm_compute; reflexivity|].
  apply (set_then_get 2 [CSet (PyStr "a") (PyInt 1); CSet (PyStr "b") (PyInt 2)]
           (PyStr "c") (PyInt 3)).
  vm_compute. reflexivity.
Defined.

(** *** Runs without [delete], from any state that the list model describes *)

Lemma sim_run_from N s a cs :
  sim N s a → no_delete cs → sim N (run s cs) (foldl (m_exec N) a cs).
Proof.
  unfold run. induction cs as [|c cs IH] using rev_ind; intros Hsim Hnd; [done|].
  apply Forall_app in Hnd as [Hnd Hc]. apply Forall_cons_1 in Hc as [Hc _].
  rewrite !foldl_snoc. by destruct (sim_exec N _ _ c Hc (IH Hsim Hnd)) as [_ H].
Qed.

(** Two engines that the same list describes show the same. *)
Lemma sim_same N s1 s2 a key :
  sim N s1 a → sim N s2 a →
  ring_items s1 = ring_items s2 ∧
  cache_info s1 = cache_info s2 ∧
  (get key s1).1 = (get key s2).1.
Proof.
  intros H1 H2. split_and!.
  - by rewrite (sim_ring_items _ _ _ H1), (sim_ring_items _ _ _ H2).
  - unfold cache_info.
    rewrite (sim_cache_len _ _ _ H1), (sim_cache_len _ _ _ H2).
    destruct H1 as (-> & -> & _), H2 as (-> & -> & _). done.
  - destruct (sim_get N _ _ key H1) as [-> _].
    by destruct (sim_get N _ _ key H2) as [-> _].
Qed.

Lemma sim_consistent N s a : sim N s a → consistent s.
Proof. intros (_ & _ & ns & HR & _). by eapply Rep_consistent. Qed.

(** After [clear], whatever came before, the list model describes the
    engine again, as the empty list. *)
Lemma sim_after_clear N cs : sim N (clear (run (init N) cs)).2 m_init.
Proof.
  destruct (Sound_run N cs) as [ns Hs].
  destruct (clear_frame _ _ _ Hs) as (_ & Hmax & Hcache & Hstat & HR).
  split; [by rewrite Hmax, maxsize_run|]. split; [done|].
  exists []. split; [|done].
  split; [done|by rewrite Hcache|apply NoDup_nil_2|by rewrite Hstat].
Qed.

(** X6.  [clear] returns in every state reached by any calls, [delete] and
    raising calls included, and [cache_info] then reports no hit, no miss
    and no entry.  From there on the engine shows what a new engine shows:
    after the same calls without [delete], the items in the ordering,
    [cache_info] and the result of every [get] are the same, and the dict
    and the ordering agree. *)
Theorem clear_makes_engine_as_new (N : Z) (cs cs' : list call) (key : pyobj) :
  delete_free cs' = true →
  let cleared := (clear (run (init N) cs)).2 in
  (clear (run (init N) cs)).1 = Return tt ∧
  cache_info cleared = (0, 0, N, 0) ∧
  ring_items (run cleared cs') = ring_items (run (init N) cs') ∧
  cache_info (run cleared cs') = cache_info (run (init N) cs') ∧
  (get key (run cleared cs')).1 = (get key (run (init N) cs')).1 ∧
  consistent (run cleared cs').
Proof.
  intros Hcs'%delete_free_no_delete. simpl.
  destruct (Sound_run N cs) as [ns Hs].
  destruct (clear_frame _ _ _ Hs) as (Hret & Hmax & Hcache & Hstat & _).
  pose proof (sim_run_from N _ _ cs' (sim_after_clear N cs) Hcs') as H1.
  pose proof (sim_run N cs' Hcs') as H2. fold (m_run N cs') in H1.
  destruct (sim_same N _ _ _ key H1 H2) as (Hi & Hinfo & Hget).
  split_and!; try done.
  - unfold cache_info, cache_len. rewrite Hstat, Hmax, Hcache, maxsize_run. done.
  - by eapply sim_consistent.
Qed.

Lemma clear_makes_engine_as_new_witness :
  delete_free [CSet (PyStr "c") (PyInt 3); CGet (PyStr "a")] = true ∧
  ring_items
    (run (clear (run (init 1)
                   [CSet (PyStr "a") (PyInt 1); CDelete (PyStr "a");
                    CSet (PyStr "b") (PyInt 2)])).2
       [CSet (PyStr "c") (PyInt 3); CGet (PyStr "a")]) =
  ring_items (run (init 1) [CSet (PyStr "c") (PyInt 3); CGet (PyStr "a")]).
Proof.
  split; [reflexivity|].
  apply (clear_makes_engine_as_new 1
           [CSet (PyStr "a") (PyInt 1); CDelete (PyStr "a"); CSet (PyStr "b") (PyInt 2)]
           [CSet (PyStr "c") (PyInt 3); CGet (PyStr "a")] (PyStr "a")).
  reflexivity.
Defined.

(** *** When the engine evicts *)

(** With a positive [maxsize] and without [delete], the engine is full
    exactly when it holds [maxsize] items. *)
Lemma m_full_run N cs :
  0 < N → no_delete cs →
  m_full (m_run N cs) = bool_decide (N ≤ Z.of_nat (length (m_items (m_run N cs)))).
Proof.
  intros HN. induction cs as [|c cs IH] using rev_ind; intros Hnd.
  - simpl. symmetry. apply bool_decide_eq_false_2. lia.
  - apply Forall_app in Hnd as [Hnd Hc]. specialize (IH Hnd).
    pose proof (sim_NoDup _ _ _ (sim_run N cs Hnd)) as Hkeys.
    unfold m_run in *. rewrite foldl_snoc.
    set (a := foldl (m_exec N) m_init cs) in *.
    destruct c as [key|key result|key|]; simpl.
    + unfold m_get. destruct (assoc key (m_items a)) as [v|] eqn:Ha; [|done].
      apply assoc_Some in Ha as (l1 & l2 & Hl & _). rewrite Hl in *.
      destruct (NoDup_keys_split _ _ _ _ Hkeys) as [Hk1 Hk2].
      simpl. rewrite drop_key_split by done. rewrite IH.
      apply bool_decide_ext. rewrite ?length_app. simpl. rewrite ?length_app. simpl. lia.
    + unfold m_set. destruct (assoc key (m_items a)) as [v|] eqn:Ha.
      * simpl. unfold replace_key. by rewrite length_fmap.
      * destruct (m_full a) eqn:Hf; simpl.
        -- symmetry in IH. apply bool_decide_eq_true_1 in IH.
           symmetry. apply bool_decide_eq_true_2.
           destruct (m_items a); simpl in *; [lia|]. rewrite length_app. simpl. lia.
        -- rewrite length_app. done.
    + done.
    + symmetry. apply bool_decide_eq_false_2. simpl. lia.
Qed.

(** X7.  On an engine built with a positive [maxsize = N] and used without
    [delete], the engine never holds more than [N] entries, and
    [set(key, result)] on a key that the dict does not hold returns and
    puts the new item at the most recently used end: below [N] entries
    nothing is evicted and the count grows by one; at [N] entries the item
    at the least recently used end, and no other, is evicted, its key is
    no longer in the dict and the count stays [N]. *)
Theorem new_key_evicts_oldest_when_full (N : Z) (cs : list call) (key result : pyobj) :
  0 < N →
  delete_free cs = true →
  cache (run (init N) cs) !! key = None →
  let s := run (init N) cs in
  let s' := (set key result s).2 in
  (set key result s).1 = Return tt ∧
  cache_len s ≤ N ∧
  (cache_len s < N →
     ring_items s' = ring_items s ++ [(key, result)] ∧
     cache_len s' = cache_len s + 1) ∧
  (cache_len s = N →
     ring_items s' = tail (ring_items s) ++ [(key, result)] ∧
     cache_len s' = N ∧
     ∃ old, lru_key s = Some old ∧ old ≠ key ∧ cache s' !! old = None).
Proof.
  intros HN Hcs%delete_free_no_delete Hk. simpl.
  pose proof (sim_run N cs Hcs) as Hsim.
  pose proof (m_full_run N cs HN Hcs) as Hfull.
  destruct (m_ok_run N cs Hcs) as (_ & _ & Hle).
  pose proof (sim_NoDup _ _ _ Hsim) as Hkeys.
  destruct (sim_set N _ _ key result Hsim) as [Hret Hsim'].
  rewrite (sim_ring_items _ _ _ Hsim'), (sim_cache_len _ _ _ Hsim').
  rewrite (sim_ring_items _ _ _ Hsim), (sim_cache_len _ _ _ Hsim).
  rewrite (sim_lru_key _ _ _ Hsim).
  assert (assoc key (m_items (m_run N cs)) = None) as Ha.
  { apply eq_None_not_Some. rewrite <- (sim_lookup _ _ _ key Hsim), Hk.
    by intros [? ?]. }
  pose proof (proj1 (assoc_None _ _) Ha) as Hnotin.
  split; [done|]. split; [lia|].
  unfold m_set in *. rewrite Ha in *. rewrite Hfull in *. split.
  - intros Hlt. rewrite bool_decide_eq_false_2 in * by lia. simpl.
    rewrite length_app. simpl. split; [done|]. lia.
  - intros Heq. rewrite bool_decide_eq_true_2 in * by lia. simpl.
    destruct (m_items (m_run N cs)) as [|[old v] l] eqn:Hl; [simpl in Heq; lia|].
    simpl in *. rewrite length_app. simpl. split; [done|]. split; [lia|].
    exists old. apply not_elem_of_cons in Hnotin as [Hne Hnotin].
    apply NoDup_cons in Hkeys as [Hold _].
    split_and!; [done|congruence|].
    eapply sim_lookup_None; [exact Hsim'|]. simpl.
    rewrite fmap_app. simpl. rewrite not_elem_of_app, not_elem_of_cons.
    split_and!; [done|congruence|apply not_elem_of_nil].
Qed.

Lemma new_key_evicts_oldest_when_full_witness :
  0 < 2 ∧
  delete_free [CSet (PyStr "a") (PyInt 1); CSet (PyStr "b") (PyInt 2);
               CGet (PyStr "a")] = true ∧
  cache (run (init 2) [CSet (PyStr "a") (PyInt 1); CSet (PyStr "b") (PyInt 2);
                       CGet (PyStr "a")]) !! PyStr "c" = None ∧
  (set (PyStr "c") (PyInt 3)
     (run (init 2) [CSet (PyStr "a") (PyInt 1); CSet (PyStr "b") (PyInt 2);
                    CGet (PyStr "a")])).1 = Return tt.
Proof.
  split; [lia|]. split; [reflexivity|]. split; [vm_compute; reflexivity|].
  apply (new_key_evicts_oldest_when_full 2
           [CSet (PyStr "a") (PyInt 1); CSet (PyStr "b") (PyInt 2); CGet (PyStr "a")]
           (PyStr "c") (PyInt 3)).
  - lia.
  - reflexivity.
  - vm_compute. reflexivity.
Defined.

(** *** The capacity, whatever the calls *)

Lemma within_capacity_exec m s ns c :
  Sound m s ns → within_capacity s → within_capacity (exec s c).
Proof.
  intros Hs [Hle Hlt]. pose proof Hs as [HR Hc Hf]. unfold within_capacity, cache_len in *.
  destruct c as [key|key result|key|]; simpl.
  - destruct (get_frame _ _ _ key Hs) as (_ & -> & -> & -> & _). done.
  - destruct (cache s !! key) as [a'|] eqn:Hk.
    + destruct (Hc _ _ Hk) as (v & Hin & Hm).
      apply list_elem_of_split in Hin as (l1 & l2 & ->).
      by destruct (set_existing key result s l1 (a', (key, v)) l2 HR Hk) as (h' & -> & _).
    + destruct (FULL (stat s)) eqn:Hfull.
      * destruct ns as [|y rest]; [by destruct Hf|].
        destruct (set_full key result s y rest HR Hk Hfull) as (h' & _ & ->).
        destruct (cache s !! y.2.1) eqn:Hy; simpl; [|by rewrite Hfull].
        rewrite Hfull. split; [|done].
        rewrite map_size_insert_None by (rewrite lookup_delete_ne; [done|congruence]).
        pose proof (map_size_delete_Some y.2.1 (cache s) (mk_is_Some _ _ Hy)) as Hd.
        assert (size (cache s) ≠ 0%nat) as Hnz.
        { intros H0%map_size_empty_inv. by rewrite H0, lookup_empty in Hy. }
        lia.
      * specialize (Hlt eq_refl).
        destruct (set_insert key result s ns HR Hk Hfull) as (h' & a' & _ & -> & _).
        simpl. rewrite map_size_insert_None by done.
        split; [lia|]. intros Hb%bool_decide_eq_false. lia.
  - destruct (Sound_root _ _ _ Hs) as [l Hl]. rewrite (delete_spec key s l Hl).
    destruct (cache s !! key) eqn:Hk; simpl; [|done].
    pose proof (map_size_delete_Some key (cache s) (mk_is_Some _ _ Hk)) as Hd.
    assert (size (cache s) ≠ 0%nat) as Hnz.
    { intros H0%map_size_empty_inv. by rewrite H0, lookup_empty in Hk. }
    split; [lia|]. intros _. lia.
  - destruct (clear_frame _ _ _ Hs) as (_ & -> & -> & -> & _).
    rewrite map_size_empty. simpl. lia.
Qed.

Lemma within_capacity_run N cs : within_capacity (run (init N) cs).
Proof.
  induction cs as [|c cs IH] using rev_ind.
  - unfold within_capacity, cache_len. simpl. rewrite map_size_empty. lia.
  - destruct (Sound_run N cs) as [ns Hs]. unfold run in *. rewrite foldl_snoc.
    by eapply within_capacity_exec.
Qed.

(** X8.  Whatever the calls on an engine built with [maxsize = N], [delete]
    and raising calls included, the number of entries that [cache_info]
    reports never exceeds [N], or one when [N] is smaller than one; while
    the [FULL] flag is off it is below that bound. *)
Theorem capacity_whatever_the_calls (N : Z) (cs : list call) :
  let s := run (init N) cs in
  (cache_info s).2 ≤ Z.max N 1 ∧
  (FULL (stat s) = false → (cache_info s).2 < Z.max N 1).
Proof.
  simpl. pose proof (within_capacity_run N cs) as H.
  unfold within_capacity in H. by rewrite maxsize_run in H.
Qed.

(** *** [delete] and the ordering *)

(** X9.  In every state reached from a new engine by any calls, [delete]
    changes no link: the ordering after [delete(key)] is the ordering
    before, with the same links at both ends.  For a key that the dict
    holds, the link of the key is therefore still in the ordering when the
    key has left the dict, and the [FULL] flag is off. *)
Theorem delete_never_touches_the_links (N : Z) (cs : list call) (key : pyobj) :
  let s := run (init N) cs in
  let s' := (delete key s).2 in
  ring_nodes s' = ring_nodes s ∧
  mru_key s' = mru_key s ∧
  lru_key s' = lru_key s ∧
  ∀ a, cache s !! key = Some a →
    (∃ v, (a, (key, v)) ∈ ring_nodes s') ∧
    cache s' !! key = None ∧
    cache_len s' = cache_len s - 1 ∧
    FULL (stat s') = false.
Proof.
  simpl. destruct (delete_frame key (run (init N) cs)) as (Hh & Hr & _).
  unfold ring_nodes, mru_key, lru_key. rewrite Hh, Hr. split_and!; try done.
  intros a' Hk. destruct (Sound_run N cs) as [ns Hs].
  destruct (Sound_root _ _ _ Hs) as [l Hl].
  fold (ring_nodes (run (init N) cs)).
  rewrite (ring_nodes_Ring _ _ (sound_ring _ _ _ Hs)).
  destruct (sound_cache _ _ _ Hs _ _ Hk) as (v & Hin & _).
  rewrite (delete_spec key _ l Hl), Hk. simpl. split_and!; [by exists v| | |done].
  - apply lookup_delete_eq.
  - unfold cache_len. simpl.
    rewrite (map_size_delete_Some key _ (mk_is_Some _ _ Hk)).
    assert (size (cache (run (init N) cs)) ≠ 0%nat) as Hnz.
    { intros H0%map_size_empty_inv. by rewrite H0, lookup_empty in Hk. }
    lia.
Qed.

(** X10.  Without [delete], the dict and the ordering agree after any
    calls and every call returns: the keys in the ordering are pairwise
    distinct, they are exactly the keys of the dict, and [cache_info]
    reports their number. *)
Theorem delete_free_runs_stay_consistent (N : Z) (cs : list call) (c : call) :
  delete_free (cs ++ [c]) = true →
  let s := run (init N) cs in
  returns s c = true ∧
  consistent s ∧
  NoDup (ring_items s).*1 ∧
  (cache_info s).2 = Z.of_nat (length (ring_items s)) ∧
  ∀ k, is_Some (cache s !! k) ↔ k ∈ (ring_items s).*1.
Proof.
  intros Hnd%delete_free_no_delete. simpl.
  destruct (consistent_without_delete N cs c Hnd) as [Hcons Hret].
  apply Forall_app in Hnd as [Hcs _].
  pose proof (sim_run N cs Hcs) as Hsim.
  rewrite (sim_ring_items _ _ _ Hsim), (sim_cache_len _ _ _ Hsim).
  split_and!; try done.
  - by eapply sim_NoDup.
  - intros k. rewrite (sim_lookup _ _ _ k Hsim).
    rewrite <- not_eq_None_Some, assoc_None.
    destruct (decide (k ∈ (m_items (m_run N cs)).*1)); tauto.
Qed.

Lemma delete_free_runs_stay_consistent_witness :
  delete_free ([CSet (PyStr "a") (PyInt 1); CGet (PyStr "b"); CClear;
                CSet (PyStr "b") (PyInt 2)] ++ [CSet (PyStr "c") (PyInt 3)]) = true ∧
  returns
    (run (init 1) [CSet (PyStr "a") (PyInt 1); CGet (PyStr "b"); CClear;
                   CSet (PyStr "b") (PyInt 2)])
    (CSet (PyStr "c") (PyInt 3)) = true.
Proof.
  split; [reflexivity|].
  apply (delete_free_runs_stay_consistent 1
           [CSet (PyStr "a") (PyInt 1); CGet (PyStr "b"); CClear;
            CSet (PyStr "b") (PyInt 2)] (CSet (PyStr "c") (PyInt 3))).
  reflexivity.
Defined.

(** X11.  After calls without [delete], a [delete] of a key that the dict
    holds breaks the agreement of the dict and the ordering: they agreed
    before, and afterwards the ordering holds one link more than the dict
    has keys. *)
Theorem delete_of_held_key_breaks_consistency
    (N : Z) (cs : list call) (key : pyobj) (a : addr) :
  delete_free cs = true →
  cache (run (init N) cs) !! key = Some a →
  let s := run (init N) cs in
  let s' := (delete key s).2 in
  (delete key s).1 = Return tt ∧
  consistent s ∧
  Z.of_nat (length (ring_items s')) = cache_len s' + 1 ∧
  ¬ consistent s'.
Proof.
  intros Hcs%delete_free_no_delete Hk. simpl.
  pose proof (sim_run N cs Hcs) as Hsim.
  pose proof (sim_consistent _ _ _ Hsim) as Hcons.
  pose proof (sim_cache_len _ _ _ Hsim) as Hlen.
  rewrite <- (sim_ring_items _ _ _ Hsim) in Hlen.
  destruct (delete_frame key (run (init N) cs)) as (Hh & Hr & _).
  destruct Hsim as (_ & _ & ns & HR & _).
  destruct (ring_root _ _ _ (rep_ring _ _ HR)) as [].
  pose proof (ring_root _ _ _ (rep_ring _ _ HR)) as Hroot.
  assert (ring_items (delete key (run (init N) cs)).2 = ring_items (run (init N) cs))
    as Hitems.
  { unfold ring_items, ring_nodes. by rewrite Hh, Hr. }
  assert (size (cache (run (init N) cs)) ≠ 0%nat) as Hnz.
  { intros H0%map_size_empty_inv. by rewrite H0, lookup_empty in Hk. }
  assert (cache_len (delete key (run (init N) cs)).2
          = cache_len (run (init N) cs) - 1) as Hlen'.
  { rewrite (delete_spec key _ _ Hroot), Hk. unfold cache_len. simpl.
    rewrite (map_size_delete_Some key _ (mk_is_Some _ _ Hk)). lia. }
  split_and!.
  - by rewrite (delete_spec key _ _ Hroot), Hk.
  - done.
  - rewrite Hitems, Hlen'. lia.
  - intros [_ Hp]. apply Permutation_length in Hp.
    rewrite length_map_to_list, length_fmap in Hp.
    unfold ring_items in Hitems. apply (f_equal length) in Hitems.
    rewrite !length_fmap in Hitems.
    unfold cache_len, ring_items in *. rewrite length_fmap in Hlen.
    unfold node in *. lia.
Qed.

Lemma delete_of_held_key_breaks_consistency_witness :
  delete_free [CSet (PyStr "a") (PyInt 1); CSet (PyStr "b") (PyInt 2)] = true ∧
  cache (run (init 2) [CSet (PyStr "a") (PyInt 1); CSet (PyStr "b") (PyInt 2)])
    !! PyStr "a" = Some 1%nat ∧
  ¬ consistent
      (delete (PyStr "a")
         (run (init 2) [CSet (PyStr "a") (PyInt 1); CSet (PyStr "b") (PyInt 2)])).2.
Proof.
  split; [reflexivity|]. split; [vm_compute; reflexivity|].
  apply (delete_of_held_key_breaks_consistency 2
           [CSet (PyStr "a") (PyInt 1); CSet (PyStr "b") (PyInt 2)] (PyStr "a") 1%nat).
  - reflexivity.
  - vm_compute. reflexivity.
Defined.

(** *** The engine and its list of items *)

(** X12.  Without [delete], the engine is a list of items kept in order of
    use, with a flag and two counters: after any calls, the items of the
    ordering, the [FULL] flag, what [cache_info] reports and the result of
    the next [get] are those of the list model, in which a [get] of a held
    key moves its item to the end, a [set] of a held key replaces its
    result in place, a [set] of a new key appends an item, in the place of
    the first one when the flag is on, and [clear] empties the list. *)
Theorem engine_refines_list_model (N : Z) (cs : list call) (key : pyobj) :
  delete_free cs = true →
  let s := run (init N) cs in
  let a := m_run N cs in
  ring_items s = m_items a ∧
  FULL (stat s) = m_full a ∧
  cache_info s = (m_hits a, m_misses a, N, Z.of_nat (length (m_items a))) ∧
  (get key s).1 = Return (m_get key a).1 ∧
  ∀ k, is_Some (cache s !! k) ↔ is_Some (assoc k (m_items a)).
Proof.
  intros Hcs%delete_free_no_delete. simpl.
  pose proof (sim_run N cs Hcs) as Hsim.
  split_and!.
  - by eapply sim_ring_items.
  - by destruct Hsim as (_ & -> & _).
  - unfold cache_info. rewrite (sim_cache_len _ _ _ Hsim).
    by destruct Hsim as (-> & -> & _).
  - by destruct (sim_get N _ _ key Hsim) as [-> _].
  - intros k. by eapply sim_lookup.
Qed.

Lemma engine_refines_list_model_witness :
  delete_free [CSet (PyStr "a") (PyInt 1); CSet (PyStr "b") (PyInt 2);
               CGet (PyStr "a"); CSet (PyStr "c") (PyInt 3)] = true ∧
  ring_items
    (run (init 2) [CSet (PyStr "a") (PyInt 1); CSet (PyStr "b") (PyInt 2);
                   CGet (PyStr "a"); CSet (PyStr "c") (PyInt 3)]) =
  m_items
    (m_run 2 [CSet (PyStr "a") (PyInt 1); CSet (PyStr "b") (PyInt 2);
              CGet (PyStr "a"); CSet (PyStr "c") (PyInt 3)]).
Proof.
  split; [reflexivity|].
  apply (engine_refines_list_model 2
           [CSet (PyStr "a") (PyInt 1); CSet (PyStr "b") (PyInt 2);
            CGet (PyStr "a"); CSet (PyStr "c") (PyInt 3)] (PyStr "a")).
  reflexivity.
Defined.

(** The dict maps distinct keys to distinct links. *)
Lemma Sound_addrs_NoDup m s ns : Sound m s ns → NoDup (map_to_list (cache s)).*2.
Proof.
  intros [HR Hc _]. pose proof (ring_nodup _ _ _ HR) as Hnd.
  apply NoDup_cons in Hnd as [_ Hnd].
  apply NoDup_fmap_2_strong; [|apply NoDup_map_to_list].
  intros [k1 a1] [k2 a2] H1%elem_of_map_to_list H2%elem_of_map_to_list Heq.
  simpl in Heq. subst a2.
  destruct (Hc _ _ H1) as (v1 & Hin1 & _). destruct (Hc _ _ H2) as (v2 & Hin2 & _).
  apply list_elem_of_lookup in Hin1 as [i1 Hi1].
  apply list_elem_of_lookup in Hin2 as [i2 Hi2].
  assert (i1 = i2) as ->.
  { eapply (NoDup_lookup _ _ _ a1 Hnd); rewrite list_lookup_fmap.
    - by rewrite Hi1.
    - by rewrite Hi2. }
  congruence.
Qed.

(** X13.  In every state reached from a new engine by any calls, [delete]
    and raising calls included, the links of the ordering are pairwise
    distinct, every key of the dict has a link in the ordering that holds
    this key with the result of the latest [set] on it, and the dict never
    has more keys than the ordering has links. *)
Theorem dict_entries_have_links (N : Z) (cs : list call) :
  let s := run (init N) cs in
  NoDup (ring_nodes s).*1 ∧
  (cache_info s).2 ≤ Z.of_nat (length (ring_nodes s)) ∧
  ∀ key a, cache s !! key = Some a →
    ∃ v, (a, (key, v)) ∈ ring_nodes s ∧ last_set cs key = Some v.
Proof.
  simpl. destruct (Sound_run N cs) as [ns Hs].
  pose proof (Sound_addrs_NoDup _ _ _ Hs) as Hnd.
  destruct Hs as [HR Hc Hf].
  rewrite (ring_nodes_Ring _ _ HR). split_and!.
  - pose proof (ring_nodup _ _ _ HR) as H. by apply NoDup_cons in H as [_ ?].
  - unfold cache_len.
    assert ((map_to_list (cache (run (init N) cs))).*2 ⊆+ ns.*1) as Hsub.
    { apply NoDup_submseteq; [done|].
      intros a' ([k a''] & -> & Hin%elem_of_map_to_list)%list_elem_of_fmap.
      destruct (Hc _ _ Hin) as (v & Hv & _).
      apply list_elem_of_fmap. by exists (a'', (k, v)). }
    apply submseteq_length in Hsub.
    rewrite !length_fmap, length_map_to_list in Hsub. unfold node in *. lia.
  - intros key a' Hk. by apply Hc.
Qed.

End LruFacts.

(** * Verification of the coder registry *)

Module CoderFacts.
Import Coder.

(** C8, as amended.  The three [register] calls of the module return, and
    the default registry holds three names: [None] for the pair of
    [bypass], which returns its argument, ['json'] for a [JsonCoder]
    instance and ['pickle'] for the pair of [pickle.dumps] and
    [pickle.loads]; [get] yields these coders, and yields [None] for
    ['serialize'], which is not registered. *)
Theorem builtin_coders :
  (∀ self,
     (register None (OTuple [OFunc Fbypass; OFunc Fbypass]) self).1 = Return tt ∧
     (register (Some "json") JsonCoder self).1 = Return tt ∧
     (register (Some "pickle") (OTuple [OFunc Fpickle_dumps; OFunc Fpickle_loads])
        self).1 = Return tt) ∧
  get None registry = Some (OCoderTuple (OFunc Fbypass) (OFunc Fbypass)) ∧
  (∀ x, call Fbypass x = Some x) ∧
  get (Some "json") registry = Some JsonCoder ∧
  get (Some "pickle") registry =
    Some (OCoderTuple (OFunc Fpickle_dumps) (OFunc Fpickle_loads)) ∧
  get (Some "serialize") registry = None ∧
  dom (coders registry) = {[None; Some "json"; Some "pickle"]}.
Proof.
  split; [done|]. split_and!; vm_compute; reflexivity.
Qed.

(** C8 as stated fails: no coder is registered under ['serialize']. *)
Lemma serialize_is_not_registered :
  get (Some "serialize") registry = None ∧
  ¬ is_Some (get (Some "serialize") registry).
Proof.
  assert (get (Some "serialize") registry = None) as H by (vm_compute; reflexivity).
  split; [done|]. rewrite H. by intros [? ?].
Qed.




(** The other way round: a named tuple with the fields [encode], [decode]
    and [extra], and an instance of a subclass of [str] that defines
    [decode], have both attributes, and [register] refuses them, at the
    arity of [CoderTuple] and at the test for strings. *)
Example register_refuses_named_triple_and_string :
  let triple :=
    OTupleInstance "X" [OFunc (Fother 1); OFunc (Fother 2); OInt 0]
      [("encode", OFunc (Fother 1)); ("decode", OFunc (Fother 2)); ("extra", OInt 0)] in
  let text := OStrInstance "S" "json" [("decode", OFunc (Fother 2))] in
  (hasattr triple "encode" && hasattr triple "decode" = true) ∧
  (hasattr text "encode" && hasattr text "decode" = true) ∧
  register (Some "x") triple registry = (Raise TypeError, registry) ∧
  register (Some "x") text registry = (Raise TypeError, registry).
Proof. vm_compute. done. Qed.


(** ** Further properties of the registry *)



(** X15.  Registrations compose by name: after [register(name, raw)] and
    then [register(name', raw')], [get(name')] yields the coder of [raw'],
    [get(name)] still yields the coder of [raw] when the names differ, and
    every other name yields what it yielded before; under one name the
    later registration wins, as if the earlier had not been made. *)
Theorem registrations_compose
    (name name' : coder_name) (raw raw' coder coder' : object) (self : Registry) :
  coderize raw = Return coder →
  coderize raw' = Return coder' →
  let r1 := (register name raw self).2 in
  let r2 := (register name' raw' r1).2 in
  (register name' raw' r1).1 = Return tt ∧
  get name' r2 = Some coder' ∧
  (name ≠ name' → get name r2 = Some coder) ∧
  (∀ n, n ≠ name → n ≠ name' → get n r2 = get n self) ∧
  (name = name' → r2 = (register name' raw' self).2).
Proof.
  intros Hc Hc'. unfold register, get. rewrite Hc, Hc'. simpl. split_and!.
  - done.
  - apply lookup_insert_eq.
  - intros Hne. rewrite lookup_insert_ne by done. apply lookup_insert_eq.
  - intros n Hn Hn'. by rewrite !lookup_insert_ne.
  - intros ->. by rewrite insert_insert_eq.
Qed.

Lemma registrations_compose_witness :
  coderize JsonCoder = Return JsonCoder ∧
  coderize (OTuple [OFunc Fbypass; OFunc Fbypass])
    = Return (OCoderTuple (OFunc Fbypass) (OFunc Fbypass)) ∧
  get (Some "pickle")
    (register (Some "pickle") (OTuple [OFunc Fbypass; OFunc Fbypass])
       (register (Some "mine") JsonCoder registry).2).2
    = Some (OCoderTuple (OFunc Fbypass) (OFunc Fbypass)).
Proof.
  split; [reflexivity|]. split; [reflexivity|].
  apply (registrations_compose (Some "mine") (Some "pickle") JsonCoder
           (OTuple [OFunc Fbypass; OFunc Fbypass]) JsonCoder
           (OCoderTuple (OFunc Fbypass) (OFunc Fbypass)) registry);
    reflexivity.
Defined.

End CoderFacts.
